(** * LibAleph: creation functions (src/new.c) over a model of the heap

    The creation functions of LibAleph allocate one block per string: a
    [struct a_header] immediately followed by the character buffer.  The
    development below embeds [src/new.c] over

    - [size_t] arithmetic as [Z] reduced modulo [2 ^ SIZE_BITS],
    - bytes as [Byte.byte], C strings as the list of bytes of the object
      the pointer designates (the terminator is one of them),
    - the heap as a finite map from block addresses to blocks,
    - a small outcome monad that separates a normal return from a failed
      [assert], from undefined behaviour and from a loop that is still
      running when the fuel is exhausted. *)

From Stdlib Require Import ZArith Lia Bool.
From stdpp Require Import base option list gmap.

Local Open Scope Z_scope.

(** ** Data model *)

(** [struct a_header] of aleph.h (the iterator field is compiled out). *)
Record a_header := Header {
  len : Z;   (* length (in code points) *)
  size : Z;  (* size (in bytes) *)
  mem : Z    (* mem size *)
}.

(** One allocated object: the header and the bytes that follow it.
    [length buf] is what the allocator really handed out after the header;
    [mem hdr] is what the header records. *)
Record block := Block {
  hdr : a_header;
  buf : list Byte.byte
}.

Abbreviation heap := (gmap positive block).

(** An [a_str] is [NULL] or the address of a block; [a_buff] and
    [a_header] move between the two ends of the same block, so one
    address stands for both. *)
Abbreviation a_str := (option positive).

(** A [const char *] argument is [NULL] or the bytes of the object it
    points to. *)
Abbreviation cstring := (option (list Byte.byte)).

(** What a successful [malloc] leaves in the fresh block is indeterminate:
    the allocator chooses both the header bits and the buffer bytes. *)
Record fresh_storage := Fresh {
  junk_hdr : a_header;
  junk_buf : nat → Byte.byte
}.

(** The platform, the build options and the collaborators defined outside
    [src/]. *)
Class env := Env {
  (* width of [size_t] in bits *)
  SIZE_BITS : Z;
  (* [sizeof (struct a_header)] *)
  sizeof_header : Z;
  (* [assert] is compiled out *)
  NDEBUG : bool;
  (* the compile-time option of aleph.h *)
  A_NULL_PASSTHROUGH : bool;
  (* declared in aleph.h, defined outside src/: [NULL] or an offset into
     its argument *)
  a_is_valid_utf8 : list Byte.byte → option nat;
  (* the allocator: given the heap and the requested size, no storage or
     the indeterminate contents of a fresh block *)
  allocator : heap → Z → option fresh_storage
}.

Definition A_MIN_STR_SIZE : Z := 16.
Definition A_MIN_CP : Z := 0x000000.
Definition A_MAX_CP : Z := 0x10FFFF.

(** ** Outcomes *)

Inductive outcome (A : Type) : Type :=
| Ret (a : A) (h : heap)   (* normal return *)
| Abort                    (* a failed [assert] *)
| Undef                    (* null dereference or out-of-bounds access *)
| Diverge.                 (* the fuel ran out inside a loop *)
Arguments Ret {A} a h.
Arguments Abort {A}.
Arguments Undef {A}.
Arguments Diverge {A}.

Definition M (A : Type) : Type := heap → outcome A.

#[export] Instance M_ret : MRet M := λ A a h, Ret a h.
#[export] Instance M_bind : MBind M := λ A B f m h,
  match m h with
  | Ret a h' => f a h'
  | Abort => Abort
  | Undef => Undef
  | Diverge => Diverge
  end.

Definition abort {A} : M A := λ _, Abort.
Definition undef {A} : M A := λ _, Undef.
Definition diverge {A} : M A := λ _, Diverge.

(** [option] results of pure helpers: [None] is an invalid read. *)
Definition defined {A} (o : option A) : M A :=
  match o with Some a => mret a | None => undef end.

(** Result of a fuelled loop: [None] is fuel exhaustion. *)
Definition finished {A} (o : option A) : M A :=
  match o with Some a => mret a | None => diverge end.

Section WithEnv.
Context {E : env}.

(** [size_t] arithmetic wraps. *)
Definition wrap (x : Z) : Z := x mod 2 ^ SIZE_BITS.

(** [assert(c)] *)
Definition assert (c : bool) : M unit :=
  if NDEBUG || c then mret () else abort.

(** ** Heap access *)

Definition load (p : positive) : M block :=
  λ h, match h !! p with Some b => Ret b h | None => Undef end.

Definition store (p : positive) (b : block) : M unit :=
  λ h, Ret () (<[p := b]> h).

(** [A_MALLOC(n)]: [NULL] and an untouched heap, or a fresh block of [n]
    bytes, of which [n - sizeof_header] follow the header. *)
Definition A_MALLOC (n : Z) : M a_str :=
  λ h, match allocator h n with
       | None => Ret None h
       | Some f =>
           let p := fresh (dom h) in
           Ret (Some p)
               (<[p := Block (junk_hdr f)
                             (junk_buf f <$> seq 0 (Z.to_nat (n - sizeof_header)))]> h)
       end.

(** [memcpy(dst + off, src, n)] on byte lists; [None] when it would read
    or write out of bounds. *)
Definition memcpy (dst : list Byte.byte) (off : Z) (src : list Byte.byte) (n : Z)
  : option (list Byte.byte) :=
  if (0 <=? off) && (0 <=? n) && (n <=? Z.of_nat (length src))
     && (off + n <=? Z.of_nat (length dst))
  then Some (take (Z.to_nat off) dst ++ take (Z.to_nat n) src
             ++ drop (Z.to_nat (off + n)) dst)
  else None.

(** [str[i] = c] *)
Definition poke (dst : list Byte.byte) (i : Z) (c : Byte.byte) : option (list Byte.byte) :=
  if (0 <=? i) && (i <? Z.of_nat (length dst))
  then Some (<[Z.to_nat i := c]> dst) else None.

(** [memcpy(str + off, src, n)] where [str] is the buffer of block [p]. *)
Definition memcpy_str (p : positive) (off : Z) (src : list Byte.byte) (n : Z) : M unit :=
  b ← load p;
  buf' ← defined (memcpy (buf b) off src n);
  store p (Block (hdr b) buf').

(** [str[i] = c] where [str] is the buffer of block [p]. *)
Definition poke_str (p : positive) (i : Z) (c : Byte.byte) : M unit :=
  b ← load p;
  buf' ← defined (poke (buf b) i c);
  store p (Block (hdr b) buf').

Definition set_len (p : positive) (v : Z) : M unit :=
  b ← load p; store p (Block (Header v (size (hdr b)) (mem (hdr b))) (buf b)).
Definition set_size (p : positive) (v : Z) : M unit :=
  b ← load p; store p (Block (Header (len (hdr b)) v (mem (hdr b))) (buf b)).
Definition set_mem (p : positive) (v : Z) : M unit :=
  b ← load p; store p (Block (Header (len (hdr b)) (size (hdr b)) v) (buf b)).

(** ** a_new_size_raw *)

(** The loop [for (++l, size = A_MIN_STR_SIZE; size < l;) size <<= 1;]
    entered with the current [size] and the already incremented [l]. *)
Fixpoint a_new_size_raw_loop (fuel : nat) (size l : Z) : option Z :=
  if size <? l then
    match fuel with
    | O => None
    | S fuel' => a_new_size_raw_loop fuel' (wrap (Z.shiftl size 1)) l
    end
  else Some size.

Definition a_new_size_raw (fuel : nat) (l : Z) : M a_str :=
  size ← finished (a_new_size_raw_loop fuel A_MIN_STR_SIZE (wrap (l + 1)));
  let n := wrap (sizeof_header + size) in
  h ← A_MALLOC n;
  match h with
  | None => mret None
  | Some p =>
      (* a block shorter than the header cannot take the store to h->mem *)
      if n <? sizeof_header then undef
      else (_ ← set_mem p size; mret (Some p))
  end.


(** ** Helpers declared in aleph.h and defined outside src/ *)

(** [strlen] of the C library: offset of the first NUL of the object;
    [None] when the object holds none (the scan leaves the object). *)
Fixpoint strlen (s : list Byte.byte) : option Z :=
  match s with
  | [] => None
  | b :: s' => if Byte.eqb b Byte.x00 then Some 0 else Z.succ <$> strlen s'
  end.

(** Modelled from the spec: the table [a_next_char_size] is declared
    [extern] in aleph.h and its contents are not under src/.  Section 4.B
    gives them: 0x00-0x7F is 1, 0xC2-0xDF is 2, 0xE0-0xEF is 3, 0xF0-0xF4
    is 4, every other byte is 1. *)
Definition a_next_char_size (c : Byte.byte) : Z :=
  let n := Z.of_N (Byte.to_N c) in
  if (0xC2 <=? n) && (n <=? 0xDF) then 2
  else if (0xE0 <=? n) && (n <=? 0xEF) then 3
  else if (0xF0 <=? n) && (n <=? 0xF4) then 4
  else 1.

(** [#define a_size_chr(c) ((a_next_char_size[(int)(unsigned char)c]))] *)
Definition a_size_chr (c : Byte.byte) : Z := a_next_char_size c.

(** Modelled from the spec: [a_len_cstr] is declared in aleph.h among the
    length functions and defined outside src/.  It is the code-point count
    of a NUL-terminated string: the walker of section 4.F advances by the
    length of the leading byte until it meets the terminator.  [None] when
    the walk leaves the object before a terminator. *)
Fixpoint a_len_cstr_walk (steps : nat) (s : list Byte.byte) : option Z :=
  match steps, s with
  | S steps', c :: _ =>
      if Byte.eqb c Byte.x00 then Some 0
      else Z.succ <$> a_len_cstr_walk steps' (drop (Z.to_nat (a_size_chr c)) s)
  | _, _ => None
  end.

Definition a_len_cstr (s : list Byte.byte) : option Z :=
  a_len_cstr_walk (length s) s.

(** Modelled from the spec: [a_size] is declared in aleph.h and defined
    outside src/; it reads the byte length recorded in the header. *)
Definition a_size (p : positive) : M Z :=
  b ← load p; mret (size (hdr b)).

Definition byte_of_Z (z : Z) : Byte.byte :=
  default Byte.x00 (Byte.of_N (Z.to_N (z mod 256))).

(** Modelled from the spec: [a_to_utf8_size] is declared in aleph.h and
    defined outside src/.  Section 4.B: [encode] writes the shortest UTF-8
    form of a scalar value, 1 to 4 bytes; the caller's buffer receives
    them followed by a terminator, and [*size] the count. *)
Definition a_to_utf8_size (cp : Z) : list Byte.byte * Z :=
  if cp <? 0x80 then
    ([byte_of_Z cp; Byte.x00], 1)
  else if cp <? 0x800 then
    ([byte_of_Z (Z.lor 0xC0 (Z.shiftr cp 6));
      byte_of_Z (Z.lor 0x80 (Z.land cp 0x3F)); Byte.x00], 2)
  else if cp <? 0x10000 then
    ([byte_of_Z (Z.lor 0xE0 (Z.shiftr cp 12));
      byte_of_Z (Z.lor 0x80 (Z.land (Z.shiftr cp 6) 0x3F));
      byte_of_Z (Z.lor 0x80 (Z.land cp 0x3F)); Byte.x00], 3)
  else
    ([byte_of_Z (Z.lor 0xF0 (Z.shiftr cp 18));
      byte_of_Z (Z.lor 0x80 (Z.land (Z.shiftr cp 12) 0x3F));
      byte_of_Z (Z.lor 0x80 (Z.land (Z.shiftr cp 6) 0x3F));
      byte_of_Z (Z.lor 0x80 (Z.land cp 0x3F)); Byte.x00], 4).

(** ** Assertion macros of aleph.h *)

(** [PASSTHROUGH_ON_FAIL(condition, val)]: when the option is on and the
    condition fails the function returns [val] at once, otherwise the
    body [k] runs. *)
Definition PASSTHROUGH_ON_FAIL {A} (condition : bool) (val : A) (k : M A) : M A :=
  if A_NULL_PASSTHROUGH && negb condition then mret val else k.

(** [A_ASSERT_UTF8(s)] is [assert(!a_is_valid_utf8(s))]. *)
Definition A_ASSERT_UTF8 (s : list Byte.byte) : M unit :=
  assert (bool_decide (a_is_valid_utf8 s = None)).

(** [A_ASSERT_CODEPOINT(cp)] is [assert(A_MIN_CP <= cp && cp <= A_MAX_CP)]. *)
Definition A_ASSERT_CODEPOINT (cp : Z) : M unit :=
  assert ((A_MIN_CP <=? cp) && (cp <=? A_MAX_CP)).

(** ** The creation functions of src/new.c *)

Definition a_new_size (fuel : nat) (l : Z) : M a_str :=
  s ← a_new_size_raw fuel l;
  match s with
  | Some p =>
      _ ← poke_str p 0 Byte.x00;
      _ ← set_len p 0;
      _ ← set_size p 0;
      mret (Some p)
  | None => mret None
  end.

Definition a_new_len (fuel : nat) (s : cstring) (l : Z) : M a_str :=
  _ ← assert (bool_decide (s ≠ None));
  PASSTHROUGH_ON_FAIL (bool_decide (s ≠ None)) None (
    str ← a_new_size_raw fuel (wrap (l + 1));
    match str with
    | Some p =>
        src ← defined s;
        _ ← memcpy_str p 0 src l;
        _ ← poke_str p l Byte.x00;
        n ← defined (a_len_cstr src);
        _ ← set_len p n;
        _ ← set_size p l;
        mret (Some p)
    | None => mret None
    end).

(** The empty string literal [""]. *)
Definition empty_literal : list Byte.byte := [Byte.x00].

Definition a_new (fuel : nat) (s : cstring) : M a_str :=
  _ ← A_ASSERT_UTF8 (default empty_literal s);
  l ← match s with
      | Some src => defined (strlen src)
      | None => mret 0
      end;
  a_new_len fuel (Some (default empty_literal s)) l.

Definition a_new_dup (fuel : nat) (s : a_str) : M a_str :=
  _ ← assert (bool_decide (s ≠ None));
  PASSTHROUGH_ON_FAIL (bool_decide (s ≠ None)) None (
    sp ← defined s;
    sz ← a_size sp;
    dup ← a_new_size_raw fuel (wrap (sz + 1));
    match dup with
    | Some p =>
        (* memcpy(a_header(dup), a_header(s), sizeof (struct a_header) + a_size(s) + 1) *)
        (* the count covers the whole header and then [count -
           sizeof_header] buffer bytes.  A count shorter than the header
           (the sum wraps, size = SIZE_MAX - 1) copies part of the header
           in C; a record of fields cannot hold that, the remainder is
           negative and the model stops at [memcpy].  No block of the
           heap can have that size. *)
        sz' ← a_size sp;
        let count := wrap (sizeof_header + sz' + 1) in
        sb ← load sp;
        db ← load p;
        buf' ← defined (memcpy (buf db) 0 (buf sb) (count - sizeof_header));
        _ ← store p (Block (hdr sb) buf');
        mret (Some p)
    | None => mret None
    end).

(** The loop [for (i = 0; i < l; i += size) memcpy(str + i, chr, size);]
    entered with the current [i]. *)
Fixpoint a_new_chr_internal_loop (fuel : nat) (p : positive) (chr : list Byte.byte)
    (size l i : Z) : M unit :=
  if i <? l then
    match fuel with
    | O => diverge
    | S fuel' =>
        _ ← memcpy_str p i chr size;
        a_new_chr_internal_loop fuel' p chr size l (wrap (i + size))
    end
  else mret ().

Definition a_new_chr_internal (fuel : nat) (chr : list Byte.byte) (size repeat : Z)
  : M a_str :=
  let l := wrap (size * repeat) in
  str ← a_new_size_raw fuel (wrap (l + 1));
  match str with
  | Some p =>
      _ ← a_new_chr_internal_loop fuel p chr size l 0;
      _ ← poke_str p l Byte.x00;
      _ ← set_len p repeat;
      _ ← set_size p l;
      mret (Some p)
  | None => mret None
  end.

Definition a_new_cp (fuel : nat) (cp : Z) (repeat : Z) : M a_str :=
  _ ← assert (negb (cp =? 0));
  _ ← A_ASSERT_CODEPOINT cp;
  let '(b, size) := a_to_utf8_size cp in
  a_new_chr_internal fuel b size repeat.

Definition a_new_chr (fuel : nat) (chr : cstring) (repeat : Z) : M a_str :=
  c ← defined (chr ≫= head);
  _ ← assert (negb (Byte.eqb c Byte.x00));
  a_new_chr_internal fuel (default [] chr) (a_size_chr c) repeat.

End WithEnv.

(** ** Specification-side notions *)

Definition is_pow2 (c : Z) : Prop := ∃ j, 0 ≤ j ∧ c = 2 ^ j.

(** [c] is the smallest power of two that is at least [lo] and at least
    [x]. *)
Definition least_pow2_geq (lo x c : Z) : Prop :=
  is_pow2 c ∧ lo ≤ c ∧ x ≤ c ∧
  ∀ c', is_pow2 c' → lo ≤ c' → x ≤ c' → c ≤ c'.

(** Closed form of the capacity the loop of [a_new_size_raw] reaches for
    an incremented request [x]. *)
Definition capacity_for (x : Z) : Z := 2 ^ Z.max 4 (Z.log2_up x).

(** Number of code points encoded in a byte sequence that carries no
    terminator: one per leading byte, each followed by its continuation
    bytes. *)
Fixpoint codepoints_walk (steps : nat) (s : list Byte.byte) : Z :=
  match steps, s with
  | S steps', c :: _ =>
      Z.succ (codepoints_walk steps' (drop (Z.to_nat (a_size_chr c)) s))
  | _, _ => 0
  end.

Definition codepoints (s : list Byte.byte) : Z := codepoints_walk (length s) s.

(** Invariant 3 of the spec on one block: the byte length is below the
    recorded capacity and the byte at the byte length is the terminator. *)
Definition terminated_within_capacity (b : block) : Prop :=
  0 ≤ size (hdr b) ∧ size (hdr b) < mem (hdr b) ∧
  buf b !! Z.to_nat (size (hdr b)) = Some Byte.x00.

(** The outcome of a creation function started in heap [h]: [NULL] with
    the heap untouched, or a handle and a heap that satisfy [P]. *)
Definition null_or (o : outcome a_str) (h : heap) (P : positive → heap → Prop) : Prop :=
  match o with
  | Ret None h' => h' = h
  | Ret (Some p) h' => P p h'
  | _ => False
  end.

(** The handle designates a block that satisfies [P]. *)
Definition holds (P : block → Prop) (p : positive) (h : heap) : Prop :=
  ∃ b, h !! p = Some b ∧ P b.

(** Platforms the development covers: [size_t] can hold [A_MIN_STR_SIZE]
    with room to double it, and a header added to the largest capacity
    does not wrap. *)
Definition platform_ok (E : env) : Prop :=
  5 ≤ SIZE_BITS ∧ 0 < sizeof_header < 2 ^ (SIZE_BITS - 1).

(** A byte count [x] whose doubled-capacity request stays representable:
    the loop of [a_new_size_raw] terminates on [x + 2]. *)
Definition fits `{E : env} (x : Z) : Prop :=
  0 ≤ x ∧ x + 2 ≤ 2 ^ (SIZE_BITS - 1).

(** The fuel covers every iteration of the capacity loop. *)
Definition enough `{E : env} (fuel : nat) : Prop :=
  (Z.to_nat SIZE_BITS ≤ fuel)%nat.

(** The assertion of [a_new] lets the argument through. *)
Definition utf8_assertion_passes `{E : env} (s : cstring) : Prop :=
  NDEBUG = true ∨ a_is_valid_utf8 (default empty_literal s) = None.

(** ** The validator as the spec words it *)

Definition byte_in (lo hi : Z) (c : Byte.byte) : bool :=
  let n := Z.of_N (Byte.to_N c) in (lo <=? n) && (n <=? hi).

(** The ranges the bytes after leading byte [c] must lie in (Unicode
    table 3-7); [None] for a byte that cannot lead. *)
Definition utf8_trail (c : Byte.byte) : option (list (Z * Z)) :=
  if byte_in 0x00 0x7F c then Some []
  else if byte_in 0xC2 0xDF c then Some [(0x80, 0xBF)]
  else if byte_in 0xE0 0xE0 c then Some [(0xA0, 0xBF); (0x80, 0xBF)]
  else if byte_in 0xED 0xED c then Some [(0x80, 0x9F); (0x80, 0xBF)]
  else if byte_in 0xE1 0xEF c then Some [(0x80, 0xBF); (0x80, 0xBF)]
  else if byte_in 0xF0 0xF0 c then Some [(0x90, 0xBF); (0x80, 0xBF); (0x80, 0xBF)]
  else if byte_in 0xF4 0xF4 c then Some [(0x80, 0x8F); (0x80, 0xBF); (0x80, 0xBF)]
  else if byte_in 0xF1 0xF3 c then Some [(0x80, 0xBF); (0x80, 0xBF); (0x80, 0xBF)]
  else None.

Fixpoint trail_ok (ranges : list (Z * Z)) (s : list Byte.byte) : bool :=
  match ranges, s with
  | [], _ => true
  | (lo, hi) :: ranges', c :: s' => byte_in lo hi c && trail_ok ranges' s'
  | _ :: _, [] => false
  end.

Fixpoint validate_walk (steps off : nat) (s : list Byte.byte) : nat :=
  match steps, s with
  | S steps', c :: s' =>
      if Byte.eqb c Byte.x00 then off
      else match utf8_trail c with
           | Some ranges =>
               if trail_ok ranges s'
               then validate_walk steps' (off + 1 + length ranges)%nat
                                  (drop (length ranges) s')
               else off
           | None => off
           end
  | _, _ => off
  end.

(** Modelled from the spec: [a_is_valid_utf8] is declared in aleph.h and
    defined outside src/.  Section 4.B: [validate] returns a pointer to
    the first invalid byte or to the end; it rejects surrogates, overlong
    forms, the bytes 0xC0, 0xC1 and 0xF5-0xFF, codes above 0x10FFFF,
    unexpected continuations and truncation.  The pointer is the offset
    of the sequence that fails, or of the terminator. *)
Definition a_is_valid_utf8_spec (s : list Byte.byte) : option nat :=
  Some (validate_walk (length s) 0 s).

(** The same scan reported the way [A_ASSERT_UTF8] reads it: [NULL] for a
    string that is valid up to its terminator. *)
Definition a_is_valid_utf8_null_if_valid (s : list Byte.byte) : option nat :=
  let k := validate_walk (length s) 0 s in
  if bool_decide (strlen s = Some (Z.of_nat k)) then None else Some k.

(** ** Result blocks *)

(** The block [a_new_size_raw] leaves behind: the allocator's junk with
    the capacity [c] recorded in [mem]. *)
Definition raw_block (f : fresh_storage) (c : Z) : block :=
  Block (Header (len (junk_hdr f)) (size (junk_hdr f)) c)
        (junk_buf f <$> seq 0 (Z.to_nat c)).

(** The outcome of a creation function that allocates capacity [c] and
    turns the raw block into [finish (raw_block f c)]. *)
Definition allocated `{E : env} (h : heap) (c : Z) (finish : block → block)
  : outcome a_str :=
  match allocator h (sizeof_header + c) with
  | None => Ret None h
  | Some f => Ret (Some (fresh (dom h))) (<[fresh (dom h) := finish (raw_block f c)]> h)
  end.

(** What [a_new_size] makes of the raw block. *)
Definition new_size_block (b : block) : block :=
  Block (Header 0 0 (mem (hdr b))) (<[0%nat := Byte.x00]> (buf b)).

(** What [a_new_len] makes of the raw block, for source bytes [src], byte
    count [l] and [n] the result of [a_len_cstr]. *)
Definition new_len_block (src : list Byte.byte) (l n : Z) (b : block) : block :=
  Block (Header n l (mem (hdr b)))
        (<[Z.to_nat l := Byte.x00]> (take (Z.to_nat l) src ++ drop (Z.to_nat l) (buf b))).

(** What [a_new_dup] makes of the raw block, for source block [sb]. *)
Definition new_dup_block (sb : block) (b : block) : block :=
  Block (hdr sb)
        (take (Z.to_nat (size (hdr sb) + 1)) (buf sb)
         ++ drop (Z.to_nat (size (hdr sb) + 1)) (buf b)).

(** What [a_new_chr_internal] makes of the raw block: [repeat] copies of
    the first [sz] bytes of [chr], then the terminator. *)
Definition new_chr_block (chr : list Byte.byte) (sz repeat : Z) (b : block) : block :=
  Block (Header repeat (sz * repeat) (mem (hdr b)))
        (<[Z.to_nat (sz * repeat) := Byte.x00]>
           (concat (replicate (Z.to_nat repeat) (take (Z.to_nat sz) chr))
            ++ drop (Z.to_nat (sz * repeat)) (buf b))).

(** ** Arguments the creation functions are meant for *)

(** [a_new_size_raw] and [a_new_size]: the incremented request does not
    exceed the largest power of two of [size_t]. *)
Definition new_size_args `{E : env} (l : Z) : Prop :=
  0 ≤ l ∧ l + 1 ≤ 2 ^ (SIZE_BITS - 1).

(** [a_new_len]: [l] bytes are readable at [src], and [src] is a string
    [a_len_cstr] can walk to its terminator. *)
Definition new_len_args `{E : env} (src : list Byte.byte) (l : Z) : Prop :=
  fits l ∧ l ≤ Z.of_nat (length src) ∧ is_Some (a_len_cstr src).

(** [a_new]: [NULL], or a terminated string; the assertion lets it
    through. *)
Definition new_args `{E : env} (s : cstring) : Prop :=
  utf8_assertion_passes s ∧
  match s with
  | None => True
  | Some src => ∃ l, strlen src = Some l ∧ fits l ∧ is_Some (a_len_cstr src)
  end.

(** [a_new_chr_internal]: the product fits and the fuel covers the
    [repeat] iterations of the fill loop. *)
Definition repeat_args `{E : env} (fuel : nat) (sz repeat : Z) : Prop :=
  0 ≤ repeat ∧ fits (sz * repeat) ∧ (Z.to_nat repeat ≤ fuel)%nat.

(** [a_new_cp]: what its two assertions demand of [cp]. *)
Definition new_cp_args `{E : env} (fuel : nat) (cp repeat : Z) : Prop :=
  cp ≠ 0 ∧ A_MIN_CP ≤ cp ≤ A_MAX_CP ∧ repeat_args fuel (a_to_utf8_size cp).2 repeat.

(** [a_new_chr]: [chr] points to a non-NUL leading byte followed by the
    rest of its sequence. *)
Definition new_chr_args `{E : env} (fuel : nat) (chr : list Byte.byte) (repeat : Z) : Prop :=
  ∃ c rest, chr = c :: rest ∧ c ≠ Byte.x00
            ∧ a_size_chr c ≤ Z.of_nat (length chr)
            ∧ repeat_args fuel (a_size_chr c) repeat.

(** [a_new_dup]: [sp] designates block [sb] of the heap, whose byte
    length and terminator lie inside its buffer. *)
Definition new_dup_args `{E : env} (h : heap) (sp : positive) (sb : block) : Prop :=
  h !! sp = Some sb ∧ fits (size (hdr sb))
  ∧ size (hdr sb) + 1 ≤ Z.of_nat (length (buf sb)).

(** The allocator returns no storage for the one block a creation
    function asks for when its incremented request is [x]: the header
    plus the capacity the loop reaches.  Other sizes it may still
    serve. *)
Definition refuses `{E : env} (h : heap) (x : Z) : Prop :=
  allocator h (sizeof_header + capacity_for x) = None.

(** No heap makes the computation stop on a failed assertion. *)
Definition no_abort {A} (m : M A) : Prop := ∀ h, m h ≠ Abort.

(** ** Sample platforms, allocators and inputs *)

(** An allocator that always has storage and hands it out dirty. *)
Definition generous : heap → Z → option fresh_storage :=
  λ _ _, Some (Fresh (Header 43690 48059 52428) (λ _, Byte.xff)).

(** An allocator with fewer than 40 bytes left: it serves smaller
    requests and returns no storage for the others. *)
Definition short_of_storage : heap → Z → option fresh_storage :=
  λ _ n, if n <? 40
         then Some (Fresh (Header 43690 48059 52428) (λ _, Byte.xff))
         else None.

(** A 64-bit platform with three 8-byte header fields. *)
Definition lp64 (ndebug passthrough : bool) (v : list Byte.byte → option nat)
    (alloc : heap → Z → option fresh_storage) : env :=
  Env 64 24 ndebug passthrough v alloc.

Definition debug_build : env := lp64 false false a_is_valid_utf8_null_if_valid generous.
Definition debug_build_spec_validator : env := lp64 false false a_is_valid_utf8_spec generous.
Definition release_build : env := lp64 true false a_is_valid_utf8_spec generous.
Definition passthrough_build : env := lp64 true true a_is_valid_utf8_spec generous.
Definition debug_build_short : env :=
  lp64 false false a_is_valid_utf8_null_if_valid short_of_storage.

(** ["ab"], ["caf\xc3\xa9"] and the single character ["\xc3\xa9"]. *)
Definition sample_ab : list Byte.byte := [Byte.x61; Byte.x62; Byte.x00].
Definition sample_cafe : list Byte.byte :=
  [Byte.x63; Byte.x61; Byte.x66; Byte.xc3; Byte.xa9; Byte.x00].
Definition sample_e_acute : list Byte.byte := [Byte.xc3; Byte.xa9].

(** A heap with one string, ["ab"], whose capacity has grown to 1024. *)
Definition sample_block : block :=
  Block (Header 2 2 1024)
        (sample_ab ++ replicate 1021 Byte.xff).
Definition sample_heap : heap := {[ 5%positive := sample_block ]}.

(** ** More of aleph.h, and notions for the further properties *)

(** [A_ASSERT_CODEPOINT_BOUNDARY(chr)] is
    [assert(((chr) & 0xC0) != 0x80)].  The mask keeps bits 6 and 7 only,
    so a [char] promoted with sign extension gives the same result as its
    byte value. *)
Definition A_ASSERT_CODEPOINT_BOUNDARY `{E : env} (chr : Byte.byte) : M unit :=
  assert (negb (Z.land (Z.of_N (Byte.to_N chr)) 0xC0 =? 0x80)).

(** Heap [h'] is heap [h] with one block more, at [p]. *)
Definition adds_block (h : heap) (p : positive) (h' : heap) : Prop :=
  h !! p = None ∧ is_Some (h' !! p) ∧ ∀ q, q ≠ p → h' !! q = h !! q.

(** Two builds for one platform and one allocator: they may differ in
    [NDEBUG], in [A_NULL_PASSTHROUGH] and in the validator. *)
Definition same_platform (E1 E2 : env) : Prop :=
  @SIZE_BITS E1 = @SIZE_BITS E2
  ∧ @sizeof_header E1 = @sizeof_header E2
  ∧ @allocator E1 = @allocator E2.

(** ["a\0b"]: an object whose string ends before the object does. *)
Definition sample_a_nul_b : list Byte.byte :=
  [Byte.x61; Byte.x00; Byte.x62; Byte.x00].

(** The heap [a_new("caf\xc3\xa9")] builds from the empty heap with the
    [generous] allocator. *)
Definition sample_heap_cafe : heap :=
  {[ 1%positive := Block (Header 4 5 16) (sample_cafe ++ replicate 10 Byte.xff) ]}.

(** * Proofs *)

(** ** The outcome monad *)

Lemma bind_eq {A B} (m : M A) (k : A → M B) (h : heap) :
  (m ≫= k) h = match m h with
               | Ret a h' => k a h'
               | Abort => Abort
               | Undef => Undef
               | Diverge => Diverge
               end.
Proof. reflexivity. Qed.

Lemma bind_ret_eq {A B} (m : M A) (k : A → M B) (h h' : heap) (a : A) :
  m h = Ret a h' → (m ≫= k) h = k a h'.
Proof. intros Hm. rewrite bind_eq, Hm. reflexivity. Qed.

(** ** Arithmetic of the capacity loop *)

Section Capacity.
Context {E : env}.
Hypothesis Hplat : platform_ok E.

Lemma size_bits_pos : 0 < 2 ^ (SIZE_BITS - 1).
Proof. destruct Hplat. apply Z.pow_pos_nonneg; lia. Qed.

Lemma size_max_half : 2 ^ SIZE_BITS = 2 * 2 ^ (SIZE_BITS - 1).
Proof.
  destruct Hplat. rewrite <- Z.pow_succ_r by lia. f_equal. lia.
Qed.

Lemma min_size_fits : A_MIN_STR_SIZE ≤ 2 ^ (SIZE_BITS - 1).
Proof.
  destruct Hplat. change A_MIN_STR_SIZE with (2 ^ 4).
  apply Z.pow_le_mono_r; lia.
Qed.

Lemma wrap_small (x : Z) : 0 ≤ x < 2 ^ SIZE_BITS → wrap x = x.
Proof. intros. unfold wrap. apply Z.mod_small. done. Qed.

Lemma wrap_fits (x : Z) : 0 ≤ x ≤ 2 ^ (SIZE_BITS - 1) → wrap x = x.
Proof.
  intros. apply wrap_small. pose proof size_max_half. pose proof size_bits_pos. lia.
Qed.

Lemma pow2_le_half (k : Z) : 0 ≤ k ≤ SIZE_BITS - 1 → 0 < 2 ^ k ≤ 2 ^ (SIZE_BITS - 1).
Proof.
  intros. split; [apply Z.pow_pos_nonneg; lia | apply Z.pow_le_mono_r; lia].
Qed.

(** One doubling stays a power of two as long as the exponent is below
    the top bit. *)
Lemma double_pow2 (k : Z) :
  0 ≤ k < SIZE_BITS - 1 → wrap (Z.shiftl (2 ^ k) 1) = 2 ^ (k + 1).
Proof.
  intros Hk. rewrite Z.shiftl_mul_pow2 by lia.
  replace (2 ^ k * 2 ^ 1) with (2 ^ (k + 1)) by (rewrite Z.pow_add_r; lia).
  apply wrap_fits. pose proof (pow2_le_half (k + 1)). lia.
Qed.

(** The doubling of the top bit is zero, and zero doubles to zero. *)
Lemma double_top : wrap (Z.shiftl (2 ^ (SIZE_BITS - 1)) 1) = 0.
Proof.
  rewrite Z.shiftl_mul_pow2 by lia. unfold wrap.
  replace (2 ^ (SIZE_BITS - 1) * 2 ^ 1) with (1 * 2 ^ SIZE_BITS)
    by (rewrite size_max_half; lia).
  apply Z.mod_mul. pose proof size_max_half. pose proof size_bits_pos. lia.
Qed.

Lemma double_zero : wrap (Z.shiftl 0 1) = 0.
Proof. rewrite Z.shiftl_0_l. unfold wrap. apply Z.mod_0_l.
  pose proof size_max_half. pose proof size_bits_pos. lia. Qed.

(** The loop started on [2 ^ k] with a request that a power of two can
    cover returns the first power of two, from [2 ^ k] on, that covers
    it. *)
Lemma a_new_size_raw_loop_pow2 (fuel : nat) (k x : Z) :
  0 ≤ k ≤ SIZE_BITS - 1 → x ≤ 2 ^ (SIZE_BITS - 1) →
  SIZE_BITS - 1 - k ≤ Z.of_nat fuel →
  a_new_size_raw_loop fuel (2 ^ k) x = Some (2 ^ Z.max k (Z.log2_up x)).
Proof.
  revert k. induction fuel as [|fuel IH]; intros k Hk Hx Hfuel.
  - assert (k = SIZE_BITS - 1) as -> by lia. simpl.
    destruct (Z.ltb_spec (2 ^ (SIZE_BITS - 1)) x); [lia|].
    f_equal. f_equal. destruct (Z.le_gt_cases x 0).
    + rewrite Z.log2_up_nonpos by done. lia.
    + assert (Z.log2_up x ≤ SIZE_BITS - 1) by (apply Z.log2_up_le_pow2; lia). lia.
  - simpl. destruct (Z.ltb_spec (2 ^ k) x) as [Hlt|Hge].
    + assert (k < SIZE_BITS - 1).
      { destruct (Z.eq_dec k (SIZE_BITS - 1)) as [->|]; lia. }
      assert (k < Z.log2_up x).
      { apply Z.nle_gt. intros Hle.
        assert (0 < x) by (pose proof (pow2_le_half k); lia).
        apply Z.log2_up_le_pow2 in Hle; lia. }
      rewrite double_pow2 by lia. rewrite IH by lia. f_equal. f_equal. lia.
    + f_equal. f_equal. destruct (Z.le_gt_cases x 0).
      * rewrite Z.log2_up_nonpos by done. lia.
      * assert (Z.log2_up x ≤ k) by (apply Z.log2_up_le_pow2; lia). lia.
Qed.

Lemma a_new_size_raw_loop_capacity (fuel : nat) (x : Z) :
  x ≤ 2 ^ (SIZE_BITS - 1) → enough fuel →
  a_new_size_raw_loop fuel A_MIN_STR_SIZE x = Some (capacity_for x).
Proof.
  intros Hx Hfuel. destruct Hplat. unfold enough in Hfuel.
  change A_MIN_STR_SIZE with (2 ^ 4).
  apply a_new_size_raw_loop_pow2; lia.
Qed.

(** A request the minimum already covers needs no iteration, hence no
    fuel. *)
Lemma a_new_size_raw_loop_min (fuel : nat) (x : Z) :
  x ≤ A_MIN_STR_SIZE →
  a_new_size_raw_loop fuel A_MIN_STR_SIZE x = Some A_MIN_STR_SIZE.
Proof.
  intros Hx. destruct fuel; simpl;
    by destruct (Z.ltb_spec A_MIN_STR_SIZE x); [lia|].
Qed.

(** Once the request exceeds the largest power of two, the size runs
    through the remaining powers, reaches zero and stays there, always
    below the request. *)
Lemma a_new_size_raw_loop_stuck (fuel : nat) (sz x : Z) :
  2 ^ (SIZE_BITS - 1) < x →
  sz = 0 ∨ (∃ k, 0 ≤ k ≤ SIZE_BITS - 1 ∧ sz = 2 ^ k) →
  a_new_size_raw_loop fuel sz x = None.
Proof.
  intros Hx. revert sz. induction fuel as [|fuel IH]; intros sz Hsz.
  - simpl. destruct (Z.ltb_spec sz x) as [|Hge]; [done|].
    destruct Hsz as [->|(k & Hk & ->)].
    + pose proof size_bits_pos. lia.
    + pose proof (pow2_le_half k). lia.
  - simpl. destruct (Z.ltb_spec sz x) as [|Hge].
    + apply IH. destruct Hsz as [->|(k & Hk & ->)].
      * left. apply double_zero.
      * destruct (Z.eq_dec k (SIZE_BITS - 1)) as [->|].
        -- left. apply double_top.
        -- right. exists (k + 1). split; [lia|]. apply double_pow2. lia.
    + destruct Hsz as [->|(k & Hk & ->)].
      * pose proof size_bits_pos. lia.
      * pose proof (pow2_le_half k). lia.
Qed.

End Capacity.

(** [capacity_for] is the claim's smallest power of two. *)
Lemma capacity_for_least (x : Z) : least_pow2_geq A_MIN_STR_SIZE x (capacity_for x).
Proof.
  unfold least_pow2_geq, capacity_for, is_pow2. repeat split.
  - exists (Z.max 4 (Z.log2_up x)). lia.
  - change A_MIN_STR_SIZE with (2 ^ 4). apply Z.pow_le_mono_r; lia.
  - destruct (Z.le_gt_cases x 0).
    + pose proof (Z.pow_pos_nonneg 2 (Z.max 4 (Z.log2_up x))). lia.
    + transitivity (2 ^ Z.log2_up x).
      * apply Z.log2_up_le_pow2; lia.
      * apply Z.pow_le_mono_r; [lia|]. lia.
  - intros c' (j & Hj & ->) Hlo Hx.
    apply Z.pow_le_mono_r; [lia|].
    apply Z.max_lub.
    + change A_MIN_STR_SIZE with (2 ^ 4) in Hlo.
      apply Z.pow_le_mono_r_iff in Hlo; lia.
    + destruct (Z.le_gt_cases x 0).
      * rewrite Z.log2_up_nonpos by done. lia.
      * apply Z.log2_up_le_pow2; lia.
Qed.

Lemma capacity_for_min (x : Z) : x ≤ A_MIN_STR_SIZE → capacity_for x = A_MIN_STR_SIZE.
Proof.
  intros Hx. unfold capacity_for. change A_MIN_STR_SIZE with (2 ^ 4) in *.
  f_equal. apply Z.max_l. destruct (Z.le_gt_cases x 0).
  - rewrite Z.log2_up_nonpos by done. lia.
  - apply Z.log2_up_le_pow2; lia.
Qed.

Lemma capacity_for_bounds (x : Z) :
  A_MIN_STR_SIZE ≤ capacity_for x ∧ x ≤ capacity_for x.
Proof. destruct (capacity_for_least x) as (_ & ? & ? & _). done. Qed.

Lemma capacity_for_fits `{E : env} (x : Z) :
  platform_ok E → x ≤ 2 ^ (SIZE_BITS - 1) → capacity_for x ≤ 2 ^ (SIZE_BITS - 1).
Proof.
  intros Hplat Hx. destruct (capacity_for_least x) as (_ & _ & _ & Hleast).
  apply Hleast; [|by apply min_size_fits|done].
  destruct Hplat. exists (SIZE_BITS - 1). split; [lia|done].
Qed.

(** ** Heap operations *)

Section Heap.
Context {E : env}.

Lemma fresh_unused (h : heap) : h !! fresh (dom h) = None.
Proof. apply not_elem_of_dom, is_fresh. Qed.

Lemma load_insert (h : heap) (p : positive) (b : block) :
  load p (<[p := b]> h) = Ret b (<[p := b]> h).
Proof. unfold load. by rewrite lookup_insert_eq. Qed.

Lemma load_lookup (h : heap) (p : positive) (b : block) :
  h !! p = Some b → load p h = Ret b h.
Proof. intros Hp. unfold load. by rewrite Hp. Qed.

Lemma store_insert (h : heap) (p : positive) (b b' : block) :
  store p b' (<[p := b]> h) = Ret () (<[p := b']> h).
Proof. unfold store. by rewrite insert_insert_eq. Qed.

Lemma set_mem_insert (h : heap) (p : positive) (b : block) (v : Z) :
  set_mem p v (<[p := b]> h)
  = Ret () (<[p := Block (Header (len (hdr b)) (size (hdr b)) v) (buf b)]> h).
Proof.
  unfold set_mem. rewrite (bind_ret_eq _ _ _ _ _ (load_insert h p b)).
  apply store_insert.
Qed.

Lemma set_len_insert (h : heap) (p : positive) (b : block) (v : Z) :
  set_len p v (<[p := b]> h)
  = Ret () (<[p := Block (Header v (size (hdr b)) (mem (hdr b))) (buf b)]> h).
Proof.
  unfold set_len. rewrite (bind_ret_eq _ _ _ _ _ (load_insert h p b)).
  apply store_insert.
Qed.

Lemma set_size_insert (h : heap) (p : positive) (b : block) (v : Z) :
  set_size p v (<[p := b]> h)
  = Ret () (<[p := Block (Header (len (hdr b)) v (mem (hdr b))) (buf b)]> h).
Proof.
  unfold set_size. rewrite (bind_ret_eq _ _ _ _ _ (load_insert h p b)).
  apply store_insert.
Qed.

Lemma poke_in_bounds (dst : list Byte.byte) (i : Z) (c : Byte.byte) :
  0 ≤ i < Z.of_nat (length dst) → poke dst i c = Some (<[Z.to_nat i := c]> dst).
Proof.
  intros Hi. unfold poke.
  destruct (Z.leb_spec 0 i); [|lia]. destruct (Z.ltb_spec i (Z.of_nat (length dst))); [|lia].
  done.
Qed.

Lemma memcpy_in_bounds (dst : list Byte.byte) (off : Z) (src : list Byte.byte) (n : Z) :
  0 ≤ off → 0 ≤ n ≤ Z.of_nat (length src) → off + n ≤ Z.of_nat (length dst) →
  memcpy dst off src n
  = Some (take (Z.to_nat off) dst ++ take (Z.to_nat n) src ++ drop (Z.to_nat (off + n)) dst).
Proof.
  intros Hoff Hn Hdst. unfold memcpy.
  destruct (Z.leb_spec 0 off); [|lia]. destruct (Z.leb_spec 0 n); [|lia].
  destruct (Z.leb_spec n (Z.of_nat (length src))); [|lia].
  destruct (Z.leb_spec (off + n) (Z.of_nat (length dst))); [|lia].
  done.
Qed.

Lemma memcpy_length (dst : list Byte.byte) (off : Z) (src dst' : list Byte.byte) (n : Z) :
  memcpy dst off src n = Some dst' → length dst' = length dst.
Proof.
  unfold memcpy. intros Hcpy.
  destruct (Z.leb_spec 0 off); [|done]. destruct (Z.leb_spec 0 n); [|done].
  destruct (Z.leb_spec n (Z.of_nat (length src))); [|done].
  destruct (Z.leb_spec (off + n) (Z.of_nat (length dst))); [|done].
  simpl in Hcpy. injection Hcpy as <-.
  rewrite !length_app, !length_take, length_drop. lia.
Qed.

Lemma poke_str_insert (h : heap) (p : positive) (b : block) (i : Z) (c : Byte.byte) :
  0 ≤ i < Z.of_nat (length (buf b)) →
  poke_str p i c (<[p := b]> h)
  = Ret () (<[p := Block (hdr b) (<[Z.to_nat i := c]> (buf b))]> h).
Proof.
  intros Hi. unfold poke_str. rewrite (bind_ret_eq _ _ _ _ _ (load_insert h p b)).
  rewrite poke_in_bounds by done. apply store_insert.
Qed.

Lemma memcpy_str_insert (h : heap) (p : positive) (b : block) (off : Z)
    (src : list Byte.byte) (n : Z) :
  0 ≤ off → 0 ≤ n ≤ Z.of_nat (length src) → off + n ≤ Z.of_nat (length (buf b)) →
  memcpy_str p off src n (<[p := b]> h)
  = Ret () (<[p := Block (hdr b)
                   (take (Z.to_nat off) (buf b) ++ take (Z.to_nat n) src
                    ++ drop (Z.to_nat (off + n)) (buf b))]> h).
Proof.
  intros Hoff Hn Hdst. unfold memcpy_str.
  rewrite (bind_ret_eq _ _ _ _ _ (load_insert h p b)).
  rewrite memcpy_in_bounds by done. apply store_insert.
Qed.

Lemma raw_block_length (f : fresh_storage) (c : Z) :
  0 ≤ c → Z.of_nat (length (buf (raw_block f c))) = c.
Proof. intros. simpl. rewrite length_fmap, length_seq. lia. Qed.

(** *** a_new_size_raw: what it returns *)

Lemma a_new_size_raw_allocated (fuel : nat) (l : Z) (h : heap) :
  platform_ok E → 0 ≤ l → l + 1 ≤ 2 ^ (SIZE_BITS - 1) →
  enough fuel ∨ l + 1 ≤ A_MIN_STR_SIZE →
  a_new_size_raw fuel l h = allocated h (capacity_for (l + 1)) id.
Proof.
  intros Hplat Hl Hfit Hfuel. unfold a_new_size_raw, allocated, id.
  rewrite (wrap_fits Hplat) by lia.
  assert (a_new_size_raw_loop fuel A_MIN_STR_SIZE (l + 1) = Some (capacity_for (l + 1)))
    as Hloop.
  { destruct Hfuel as [Hfuel|Hmin].
    - by apply a_new_size_raw_loop_capacity.
    - rewrite capacity_for_min by done. by apply a_new_size_raw_loop_min. }
  rewrite bind_eq, Hloop. simpl.
  pose proof (capacity_for_bounds (l + 1)) as [Hmin _].
  pose proof (capacity_for_fits (l + 1) Hplat Hfit) as Hcap.
  unfold A_MIN_STR_SIZE in Hmin.
  assert (wrap (sizeof_header + capacity_for (l + 1))
          = sizeof_header + capacity_for (l + 1)) as ->.
  { apply wrap_small. pose proof (size_max_half Hplat). destruct Hplat. lia. }
  rewrite bind_eq. unfold A_MALLOC.
  destruct (allocator h (sizeof_header + capacity_for (l + 1))) as [f|]; [|done].
  destruct (Z.ltb_spec (sizeof_header + capacity_for (l + 1)) sizeof_header); [lia|].
  rewrite bind_eq, set_mem_insert. simpl. unfold raw_block.
  do 5 f_equal. lia.
Qed.

End Heap.

(** ** The creation functions: what they return *)

Section Creation.
Context {E : env}.
Hypothesis Hplat : platform_ok E.

Lemma assert_passes (c : bool) (h : heap) :
  NDEBUG = true ∨ c = true → assert c h = Ret () h.
Proof. unfold assert. intros [->| ->]; [done|]. by rewrite orb_true_r. Qed.

Lemma assert_fails (c : bool) (h : heap) :
  NDEBUG = false → c = false → assert c h = Abort.
Proof. unfold assert. by intros -> ->. Qed.

Lemma passthrough_skipped {A} (val : A) (k : M A) :
  PASSTHROUGH_ON_FAIL true val k = k.
Proof. unfold PASSTHROUGH_ON_FAIL. by rewrite andb_false_r. Qed.

Lemma fits_capacity (x : Z) :
  fits x → x + 2 ≤ capacity_for (x + 2) ∧ capacity_for (x + 2) ≤ 2 ^ (SIZE_BITS - 1).
Proof.
  intros [? ?]. split.
  - apply capacity_for_bounds.
  - by apply capacity_for_fits.
Qed.

Lemma a_new_size_allocated (fuel : nat) (l : Z) (h : heap) :
  0 ≤ l → l + 1 ≤ 2 ^ (SIZE_BITS - 1) → enough fuel →
  a_new_size fuel l h = allocated h (capacity_for (l + 1)) new_size_block.
Proof.
  intros Hl Hfit Hfuel. unfold a_new_size.
  rewrite bind_eq, a_new_size_raw_allocated by (done || by left).
  unfold allocated, id.
  destruct (allocator h _) as [f|]; [|done].
  pose proof (capacity_for_bounds (l + 1)) as [Hmin _]. unfold A_MIN_STR_SIZE in Hmin.
  rewrite bind_eq, poke_str_insert by (rewrite raw_block_length; lia).
  rewrite bind_eq, set_len_insert, bind_eq, set_size_insert. done.
Qed.

Lemma a_new_len_allocated (fuel : nat) (src : list Byte.byte) (l n : Z) (h : heap) :
  fits l → l ≤ Z.of_nat (length src) → a_len_cstr src = Some n →
  enough fuel ∨ l + 2 ≤ A_MIN_STR_SIZE →
  a_new_len fuel (Some src) l h
  = allocated h (capacity_for (l + 2)) (new_len_block src l n).
Proof.
  intros Hfit Hsrc Hn Hfuel. pose proof (fits_capacity l Hfit) as [Hlo Hhi].
  destruct Hfit as [Hl Hl2]. unfold a_new_len.
  rewrite bind_eq, assert_passes by (right; by apply bool_decide_eq_true).
  rewrite (bool_decide_true (Some src ≠ None)) by done.
  rewrite passthrough_skipped.
  rewrite (wrap_fits Hplat) by lia.
  rewrite bind_eq, a_new_size_raw_allocated
    by (done || lia || (destruct Hfuel; [by left|right; lia])).
  replace (l + 1 + 1) with (l + 2) by lia. unfold allocated, id.
  destruct (allocator h _) as [f|]; [|done].
  rewrite bind_eq. simpl defined. unfold mret at 1, M_ret at 1.
  rewrite bind_eq, memcpy_str_insert by (rewrite ?raw_block_length; lia).
  rewrite bind_eq, poke_str_insert.
  2:{ simpl. rewrite !length_app, !length_take, length_drop, length_fmap, length_seq. lia. }
  rewrite bind_eq, Hn. simpl defined. unfold mret at 1, M_ret at 1.
  rewrite bind_eq, set_len_insert, bind_eq, set_size_insert. done.
Qed.

Lemma strlen_bounds (s : list Byte.byte) (l : Z) :
  strlen s = Some l → 0 ≤ l < Z.of_nat (length s) ∧ s !! Z.to_nat l = Some Byte.x00.
Proof.
  revert l. induction s as [|c s IH]; intros l; simpl; [done|].
  destruct (Byte.eqb c Byte.x00) eqn:Hc.
  - intros [= <-]. split; [lia|]. simpl. f_equal. by apply Byte.byte_dec_bl.
  - destruct (strlen s) as [l'|]; [|done]. intros [= <-].
    destruct (IH l' eq_refl) as [? Hl']. split; [lia|].
    replace (Z.to_nat (Z.succ l')) with (S (Z.to_nat l')) by lia. done.
Qed.

Lemma utf8_assertion (s : cstring) (h : heap) :
  utf8_assertion_passes s → A_ASSERT_UTF8 (default empty_literal s) h = Ret () h.
Proof.
  intros Hpass. unfold A_ASSERT_UTF8. apply assert_passes.
  destruct Hpass as [?|Hv]; [by left|right]. by apply bool_decide_eq_true.
Qed.

Lemma a_new_null_allocated (fuel : nat) (h : heap) :
  utf8_assertion_passes None →
  a_new fuel None h = allocated h A_MIN_STR_SIZE (new_len_block empty_literal 0 0).
Proof.
  intros Hpass. unfold a_new.
  rewrite bind_eq, utf8_assertion by done.
  rewrite bind_eq. unfold mret at 1, M_ret at 1. simpl default.
  pose proof (min_size_fits Hplat) as Hmin.
  rewrite (a_new_len_allocated fuel empty_literal 0 0).
  - by rewrite capacity_for_min.
  - unfold A_MIN_STR_SIZE in Hmin. split; lia.
  - simpl. lia.
  - done.
  - by right.
Qed.

Lemma a_new_allocated (fuel : nat) (src : list Byte.byte) (l n : Z) (h : heap) :
  utf8_assertion_passes (Some src) →
  strlen src = Some l → a_len_cstr src = Some n → fits l → enough fuel →
  a_new fuel (Some src) h
  = allocated h (capacity_for (l + 2)) (new_len_block src l n).
Proof.
  intros Hpass Hl Hn Hfit Hfuel. unfold a_new.
  rewrite bind_eq, utf8_assertion by done.
  rewrite bind_eq, Hl. simpl defined. unfold mret at 1, M_ret at 1. simpl default.
  apply strlen_bounds in Hl as [? _].
  apply a_new_len_allocated; (done || lia || by left).
Qed.

Lemma a_size_lookup (h : heap) (p : positive) (b : block) :
  h !! p = Some b → a_size p h = Ret (size (hdr b)) h.
Proof. intros Hp. unfold a_size. by rewrite bind_eq, (load_lookup _ _ _ Hp). Qed.

Lemma a_new_dup_allocated (fuel : nat) (sp : positive) (sb : block) (h : heap) :
  h !! sp = Some sb → fits (size (hdr sb)) →
  size (hdr sb) + 1 ≤ Z.of_nat (length (buf sb)) → enough fuel →
  a_new_dup fuel (Some sp) h
  = allocated h (capacity_for (size (hdr sb) + 2)) (new_dup_block sb).
Proof.
  intros Hsp Hfit Hbuf Hfuel. pose proof (fits_capacity _ Hfit) as [Hlo Hhi].
  destruct Hfit as [Hl Hl2]. unfold a_new_dup.
  rewrite bind_eq, assert_passes by (right; by apply bool_decide_eq_true).
  rewrite (bool_decide_true (Some sp ≠ None)) by done.
  rewrite passthrough_skipped.
  rewrite bind_eq. simpl defined. unfold mret at 1, M_ret at 1.
  rewrite bind_eq, (a_size_lookup _ _ _ Hsp).
  rewrite (wrap_fits Hplat) by lia.
  rewrite bind_eq, a_new_size_raw_allocated by (done || lia || by left).
  replace (size (hdr sb) + 1 + 1) with (size (hdr sb) + 2) by lia.
  unfold allocated, id.
  destruct (allocator h _) as [f|]; [|done].
  assert (fresh (dom h) ≠ sp) as Hne.
  { intros Heq. pose proof (fresh_unused h) as Hfresh. rewrite Heq in Hfresh. congruence. }
  assert (<[fresh (dom h) := raw_block f (capacity_for (size (hdr sb) + 2))]> h !! sp
          = Some sb) as Hsp' by (by rewrite lookup_insert_ne).
  rewrite bind_eq, (a_size_lookup _ _ _ Hsp').
  rewrite bind_eq, (load_lookup _ _ _ Hsp').
  rewrite bind_eq, load_insert.
  assert (wrap (sizeof_header + size (hdr sb) + 1) = sizeof_header + size (hdr sb) + 1) as ->.
  { apply wrap_small. pose proof (size_max_half Hplat). destruct Hplat. lia. }
  replace (sizeof_header + size (hdr sb) + 1 - sizeof_header)
    with (size (hdr sb) + 1) by lia.
  rewrite bind_eq, memcpy_in_bounds by (rewrite ?raw_block_length; lia).
  simpl defined. unfold mret at 1, M_ret at 1.
  rewrite bind_eq, store_insert. done.
Qed.

(** *** The fill loop of a_new_chr_internal *)

Lemma concat_replicate_length (k : nat) (piece : list Byte.byte) :
  length (concat (replicate k piece)) = (k * length piece)%nat.
Proof. induction k as [|k IH]; simpl; [done|]. rewrite length_app, IH. lia. Qed.

Lemma concat_replicate_snoc (k : nat) (piece : list Byte.byte) :
  concat (replicate k piece) ++ piece = concat (replicate (S k) piece).
Proof.
  induction k as [|k IH]; simpl.
  - by rewrite app_nil_r.
  - rewrite <- app_assoc, IH. done.
Qed.

Lemma a_new_chr_internal_loop_fills (n : nat) :
  ∀ (fuel k : nat) (p : positive) (chr : list Byte.byte) (sz l : Z)
    (hd : a_header) (junk : list Byte.byte) (h : heap),
  0 < sz ≤ Z.of_nat (length chr) →
  l = sz * Z.of_nat (k + n) → l ≤ Z.of_nat (length junk) → l < 2 ^ SIZE_BITS →
  (n ≤ fuel)%nat →
  a_new_chr_internal_loop fuel p chr sz l (sz * Z.of_nat k)
    (<[p := Block hd (concat (replicate k (take (Z.to_nat sz) chr))
                      ++ drop (Z.to_nat (sz * Z.of_nat k)) junk)]> h)
  = Ret () (<[p := Block hd (concat (replicate (k + n) (take (Z.to_nat sz) chr))
                             ++ drop (Z.to_nat l) junk)]> h).
Proof.
  induction n as [|n IH]; intros fuel k p chr sz l hd junk h Hsz Hl Hjunk Hmax Hfuel.
  - rewrite Nat.add_0_r in *. subst l.
    destruct fuel; simpl; by rewrite Z.ltb_irrefl.
  - destruct fuel as [|fuel]; [lia|]. simpl.
    assert (sz * Z.of_nat k + sz ≤ l) by nia.
    assert (0 ≤ sz * Z.of_nat k) by nia.
    destruct (Z.ltb_spec (sz * Z.of_nat k) l); [|lia].
    set (piece := take (Z.to_nat sz) chr).
    assert (length piece = Z.to_nat sz) as Hpiece.
    { unfold piece. rewrite length_take. lia. }
    assert (length (concat (replicate k piece)) = Z.to_nat (sz * Z.of_nat k)) as Hdone.
    { rewrite concat_replicate_length, Hpiece. nia. }
    rewrite bind_eq, memcpy_str_insert.
    2: lia. 2: lia.
    2:{ simpl. rewrite length_app, Hdone, length_drop. lia. }
    simpl buf. simpl hdr.
    rewrite (take_app_length' _ _ _ (eq_sym Hdone)).
    rewrite drop_app_ge by lia. rewrite drop_drop.
    replace (Z.to_nat (sz * Z.of_nat k)
             + (Z.to_nat (sz * Z.of_nat k + sz) - length (concat (replicate k piece))))%nat
      with (Z.to_nat (sz * Z.of_nat (S k))) by nia.
    fold piece. rewrite app_assoc, concat_replicate_snoc.
    assert (wrap (sz * Z.of_nat k + sz) = sz * Z.of_nat (S k)) as ->.
    { replace (sz * Z.of_nat k + sz) with (sz * Z.of_nat (S k)) by nia.
      apply wrap_small. nia. }
    replace (k + S n)%nat with (S k + n)%nat by lia.
    apply IH; (done || lia || nia).
Qed.

Lemma a_new_chr_internal_allocated (fuel : nat) (chr : list Byte.byte) (sz repeat : Z)
    (h : heap) :
  0 < sz ≤ Z.of_nat (length chr) → 0 ≤ repeat → fits (sz * repeat) →
  enough fuel → (Z.to_nat repeat ≤ fuel)%nat →
  a_new_chr_internal fuel chr sz repeat h
  = allocated h (capacity_for (sz * repeat + 2)) (new_chr_block chr sz repeat).
Proof.
  intros Hsz Hrep Hfit Hfuel Hfuel'. pose proof (fits_capacity _ Hfit) as [Hlo Hhi].
  destruct Hfit as [Hl Hl2]. unfold a_new_chr_internal.
  pose proof (size_max_half Hplat) as Hhalf.
  rewrite !(wrap_fits Hplat) by (rewrite ?(wrap_fits Hplat); lia).
  rewrite bind_eq, a_new_size_raw_allocated by (done || lia || by left).
  replace (sz * repeat + 1 + 1) with (sz * repeat + 2) by lia.
  unfold allocated, id.
  destruct (allocator h _) as [f|]; [|done].
  set (c := capacity_for (sz * repeat + 2)) in *.
  unfold new_chr_block.
  assert (Z.of_nat (length (buf (raw_block f c))) = c) as Hjunk
    by (apply raw_block_length; lia).
  destruct (raw_block f c) as [hd junk]. simpl in Hjunk. simpl hdr. simpl buf.
  pose proof (a_new_chr_internal_loop_fills (Z.to_nat repeat) fuel 0 (fresh (dom h))
                chr sz (sz * repeat) hd junk h) as Hloop.
  rewrite Z.mul_0_r in Hloop. change (Z.to_nat 0) with 0%nat in Hloop.
  rewrite drop_0 in Hloop. simpl in Hloop.
  rewrite bind_eq, Hloop by (done || lia).
  rewrite bind_eq, poke_str_insert.
  2:{ simpl. rewrite length_app, concat_replicate_length, length_take, length_drop. nia. }
  rewrite bind_eq, set_len_insert, bind_eq, set_size_insert. done.
Qed.

Lemma a_size_chr_bounds (c : Byte.byte) : 1 ≤ a_size_chr c ≤ 4.
Proof.
  unfold a_size_chr, a_next_char_size.
  repeat match goal with |- context [if ?b then _ else _] => destruct b end; lia.
Qed.

Lemma a_to_utf8_size_bounds (cp : Z) :
  1 ≤ (a_to_utf8_size cp).2 ≤ 4
  ∧ Z.of_nat (length (a_to_utf8_size cp).1) = (a_to_utf8_size cp).2 + 1.
Proof.
  unfold a_to_utf8_size.
  repeat match goal with |- context [if ?b then _ else _] => destruct b end;
    simpl; lia.
Qed.

Lemma a_new_cp_allocated (fuel : nat) (cp repeat : Z) (h : heap) :
  NDEBUG = true ∨ (cp ≠ 0 ∧ A_MIN_CP ≤ cp ≤ A_MAX_CP) →
  0 ≤ repeat → fits ((a_to_utf8_size cp).2 * repeat) →
  enough fuel → (Z.to_nat repeat ≤ fuel)%nat →
  a_new_cp fuel cp repeat h
  = allocated h (capacity_for ((a_to_utf8_size cp).2 * repeat + 2))
              (new_chr_block (a_to_utf8_size cp).1 (a_to_utf8_size cp).2 repeat).
Proof.
  intros Hcp Hrep Hfit Hfuel Hfuel'. unfold a_new_cp.
  rewrite bind_eq, assert_passes.
  2:{ destruct Hcp as [?|[Hnz _]]; [by left|right].
      apply negb_true_iff. by apply Z.eqb_neq. }
  unfold A_ASSERT_CODEPOINT. rewrite bind_eq, assert_passes.
  2:{ destruct Hcp as [?|[_ Hr]]; [by left|right].
      apply andb_true_iff. split; apply Z.leb_le; lia. }
  pose proof (a_to_utf8_size_bounds cp) as [Hsz Hlen].
  destruct (a_to_utf8_size cp) as [b sz]. simpl in *.
  apply a_new_chr_internal_allocated; (done || lia).
Qed.

Lemma a_new_chr_allocated (fuel : nat) (c : Byte.byte) (rest : list Byte.byte)
    (repeat : Z) (h : heap) :
  NDEBUG = true ∨ c ≠ Byte.x00 →
  a_size_chr c ≤ Z.of_nat (length (c :: rest)) →
  0 ≤ repeat → fits (a_size_chr c * repeat) →
  enough fuel → (Z.to_nat repeat ≤ fuel)%nat →
  a_new_chr fuel (Some (c :: rest)) repeat h
  = allocated h (capacity_for (a_size_chr c * repeat + 2))
              (new_chr_block (c :: rest) (a_size_chr c) repeat).
Proof.
  intros Hc Hlen Hrep Hfit Hfuel Hfuel'. unfold a_new_chr.
  rewrite bind_eq. simpl defined. unfold mret at 1, M_ret at 1.
  rewrite bind_eq, assert_passes.
  2:{ destruct Hc as [?|Hnz]; [by left|right].
      apply negb_true_iff. destruct (Byte.eqb c Byte.x00) eqn:Heq; [|done].
      by apply Byte.byte_dec_bl in Heq. }
  simpl default. pose proof (a_size_chr_bounds c).
  apply a_new_chr_internal_allocated; (done || lia).
Qed.

End Creation.

(** ** Outcomes of an allocation *)

Section Allocated.
Context {E : env}.

Lemma allocated_holds (h : heap) (c : Z) (finish : block → block) (P : block → Prop) :
  (∀ f, P (finish (raw_block f c))) →
  null_or (allocated h c finish) h (holds P).
Proof.
  intros HP. unfold allocated. destruct (allocator h _) as [f|]; simpl; [|done].
  exists (finish (raw_block f c)). split; [apply lookup_insert_eq|apply HP].
Qed.

Lemma allocated_refused (h : heap) (x : Z) (finish : block → block) :
  refuses h x → allocated h (capacity_for x) finish = Ret None h.
Proof. intros Hno. unfold allocated. by rewrite Hno. Qed.

Lemma terminated_new_len (src : list Byte.byte) (l n c : Z) (f : fresh_storage) :
  0 ≤ l → l ≤ Z.of_nat (length src) → l + 2 ≤ c →
  terminated_within_capacity (new_len_block src l n (raw_block f c)).
Proof.
  intros Hl Hsrc Hc. unfold terminated_within_capacity. simpl. repeat split; [done|lia|].
  apply list_lookup_insert_eq.
  rewrite length_app, length_take, length_drop, length_fmap, length_seq. lia.
Qed.

Lemma terminated_new_chr (chr : list Byte.byte) (sz repeat c : Z) (f : fresh_storage) :
  0 < sz ≤ Z.of_nat (length chr) → 0 ≤ repeat → sz * repeat + 2 ≤ c →
  terminated_within_capacity (new_chr_block chr sz repeat (raw_block f c)).
Proof.
  intros Hsz Hrep Hc. unfold terminated_within_capacity. simpl.
  repeat split; [nia|lia|].
  apply list_lookup_insert_eq.
  rewrite length_app, concat_replicate_length, length_take, length_drop,
    length_fmap, length_seq. nia.
Qed.

End Allocated.

(** ** Where an assertion can fail *)

Section NoAbort.
Context {E : env}.

Lemma no_abort_ret {A} (a : A) : no_abort (mret a).
Proof. by intros h. Qed.

Lemma no_abort_undef {A} : no_abort (@undef A).
Proof. by intros h. Qed.

Lemma no_abort_diverge {A} : no_abort (@diverge A).
Proof. by intros h. Qed.

Lemma no_abort_bind {A B} (m : M A) (k : A → M B) :
  no_abort m → (∀ a, no_abort (k a)) → no_abort (m ≫= k).
Proof.
  intros Hm Hk h. rewrite bind_eq. destruct (m h) eqn:Hmh; [apply Hk| |done|done].
  by apply Hm in Hmh.
Qed.

Lemma no_abort_defined {A} (o : option A) : no_abort (defined o).
Proof. destruct o; [apply no_abort_ret|apply no_abort_undef]. Qed.

Lemma no_abort_finished {A} (o : option A) : no_abort (finished o).
Proof. destruct o; [apply no_abort_ret|apply no_abort_diverge]. Qed.

Lemma no_abort_load (p : positive) : no_abort (load p).
Proof. intros h. unfold load. by destruct (h !! p). Qed.

Lemma no_abort_store (p : positive) (b : block) : no_abort (store p b).
Proof. by intros h. Qed.

Lemma no_abort_A_MALLOC (n : Z) : no_abort (A_MALLOC n).
Proof. intros h. unfold A_MALLOC. by destruct (allocator h n). Qed.

Ltac no_abort_step :=
  first [ apply no_abort_ret | apply no_abort_undef | apply no_abort_diverge
        | apply no_abort_defined | apply no_abort_finished
        | apply no_abort_load | apply no_abort_store | apply no_abort_A_MALLOC
        | match goal with H : context [no_abort] |- _ => apply H end
        | apply no_abort_bind; [|intros ?]
        | match goal with
          | |- no_abort (match ?x with _ => _ end) => destruct x
          end ].

Lemma no_abort_set_len (p : positive) (v : Z) : no_abort (set_len p v).
Proof. unfold set_len. repeat no_abort_step. Qed.

Lemma no_abort_set_size (p : positive) (v : Z) : no_abort (set_size p v).
Proof. unfold set_size. repeat no_abort_step. Qed.

Lemma no_abort_set_mem (p : positive) (v : Z) : no_abort (set_mem p v).
Proof. unfold set_mem. repeat no_abort_step. Qed.

Lemma no_abort_poke_str (p : positive) (i : Z) (c : Byte.byte) : no_abort (poke_str p i c).
Proof. unfold poke_str. repeat no_abort_step. Qed.

Lemma no_abort_memcpy_str (p : positive) (off : Z) (src : list Byte.byte) (n : Z) :
  no_abort (memcpy_str p off src n).
Proof. unfold memcpy_str. repeat no_abort_step. Qed.

Lemma no_abort_a_new_size_raw (fuel : nat) (l : Z) : no_abort (a_new_size_raw fuel l).
Proof.
  unfold a_new_size_raw. cbv zeta. pose proof no_abort_set_mem.
  repeat no_abort_step.
Qed.

Lemma no_abort_a_new_chr_internal_loop (fuel : nat) (p : positive) (chr : list Byte.byte)
    (sz l i : Z) :
  no_abort (a_new_chr_internal_loop fuel p chr sz l i).
Proof.
  revert i. induction fuel as [|fuel IH]; intros i; simpl;
    pose proof no_abort_memcpy_str; repeat no_abort_step.
Qed.

Lemma no_abort_a_new_chr_internal (fuel : nat) (chr : list Byte.byte) (sz repeat : Z) :
  no_abort (a_new_chr_internal fuel chr sz repeat).
Proof.
  unfold a_new_chr_internal. cbv zeta.
  pose proof no_abort_a_new_size_raw. pose proof no_abort_a_new_chr_internal_loop.
  pose proof no_abort_poke_str. pose proof no_abort_set_len. pose proof no_abort_set_size.
  repeat no_abort_step.
Qed.

Lemma no_abort_a_new_len (fuel : nat) (src : list Byte.byte) (l : Z) :
  no_abort (a_new_len fuel (Some src) l).
Proof.
  unfold a_new_len. rewrite (bool_decide_true (Some src ≠ None)) by done.
  rewrite passthrough_skipped.
  pose proof no_abort_a_new_size_raw. pose proof no_abort_memcpy_str.
  pose proof no_abort_poke_str. pose proof no_abort_set_len. pose proof no_abort_set_size.
  apply no_abort_bind; [|intros ?; repeat no_abort_step].
  intros h. by rewrite assert_passes by (by right).
Qed.

End NoAbort.

(** ** Requests beyond the largest power of two *)

(** [a_new_size_raw] on the largest [size_t]: the increment wraps to 0,
    the loop exits at once and the block has the minimum capacity, far
    below the request. *)
Lemma a_new_size_raw_wraps `{E : env} (fuel : nat) (h : heap) :
  platform_ok E →
  a_new_size_raw fuel (2 ^ SIZE_BITS - 1) h = allocated h A_MIN_STR_SIZE id.
Proof.
  intros Hplat. unfold a_new_size_raw, allocated, id.
  pose proof (size_max_half Hplat) as Hhalf. pose proof (min_size_fits Hplat) as Hmin.
  assert (wrap (2 ^ SIZE_BITS - 1 + 1) = 0) as ->.
  { unfold wrap. replace (2 ^ SIZE_BITS - 1 + 1) with (1 * 2 ^ SIZE_BITS) by lia.
    apply Z.mod_mul. unfold A_MIN_STR_SIZE in Hmin. lia. }
  rewrite bind_eq, a_new_size_raw_loop_min by (unfold A_MIN_STR_SIZE; lia). simpl.
  unfold A_MIN_STR_SIZE in *.
  assert (wrap (sizeof_header + 16) = sizeof_header + 16) as ->.
  { apply wrap_small. destruct Hplat. lia. }
  rewrite bind_eq. unfold A_MALLOC.
  destruct (allocator h (sizeof_header + 16)) as [f|]; [|done].
  destruct (Z.ltb_spec (sizeof_header + 16) sizeof_header); [lia|].
  rewrite bind_eq, set_mem_insert. simpl. unfold raw_block.
  do 5 f_equal. lia.
Qed.

(** A source string too long for [fits] cannot be duplicated: the
    capacity loop never exits. *)
Lemma a_new_dup_diverges `{E : env} (fuel : nat) (sp : positive) (sb : block) (h : heap) :
  platform_ok E → h !! sp = Some sb →
  2 ^ (SIZE_BITS - 1) < size (hdr sb) + 2 < 2 ^ SIZE_BITS →
  a_new_dup fuel (Some sp) h = Diverge.
Proof.
  intros Hplat Hsp Hsz. unfold a_new_dup.
  rewrite bind_eq, assert_passes by (right; by apply bool_decide_eq_true).
  rewrite (bool_decide_true (Some sp ≠ None)) by done.
  rewrite passthrough_skipped.
  rewrite bind_eq. simpl defined. unfold mret at 1, M_ret at 1.
  rewrite bind_eq, (a_size_lookup _ _ _ Hsp).
  pose proof (size_bits_pos Hplat).
  rewrite bind_eq. unfold a_new_size_raw.
  rewrite !wrap_small by (rewrite ?wrap_small; lia).
  rewrite bind_eq, (a_new_size_raw_loop_stuck Hplat); [done|lia|].
  right. exists 4. split; [destruct Hplat; lia|done].
Qed.

(** * The claims *)

(** C2: for a request [l] with [l + 1] at most the largest power of two
    of [size_t], [a_new_size_raw l] returns [NULL] and leaves the heap
    alone, or returns a block whose recorded capacity [mem] is the
    smallest power of two that is at least [A_MIN_STR_SIZE] and at least
    [l + 1]; the buffer the allocator handed out has that many bytes. *)
Theorem a_new_size_raw_capacity `{E : env} (fuel : nat) (l : Z) (h : heap) :
  platform_ok E → new_size_args l → enough fuel →
  null_or (a_new_size_raw fuel l h) h
    (holds (λ b, least_pow2_geq A_MIN_STR_SIZE (l + 1) (mem (hdr b))
                 ∧ Z.of_nat (length (buf b)) = mem (hdr b))).
Proof.
  intros Hplat [Hl Hfit] Hfuel.
  rewrite a_new_size_raw_allocated by (done || by left).
  apply allocated_holds. intros f. split.
  - apply capacity_for_least.
  - pose proof (capacity_for_bounds (l + 1)) as [Hmin _]. unfold A_MIN_STR_SIZE in Hmin.
    unfold id. simpl mem. apply raw_block_length. lia.
Qed.

Lemma a_new_size_raw_capacity_witness :
  null_or (@a_new_size_raw release_build 64 20 ∅) ∅
    (holds (λ b, least_pow2_geq A_MIN_STR_SIZE (20 + 1) (mem (hdr b))
                 ∧ Z.of_nat (length (buf b)) = mem (hdr b))).
Proof.
  apply (@a_new_size_raw_capacity release_build 64 20 ∅).
  - unfold platform_ok. simpl. lia.
  - unfold new_size_args. simpl. lia.
  - unfold enough. simpl. lia.
Defined.

(** C3: each of [a_new], [a_new_len], [a_new_size], [a_new_cp],
    [a_new_chr] and [a_new_dup], called on the arguments it is meant for
    (for [a_new_dup], a source block that satisfies the invariant),
    returns [NULL] with the heap untouched or a string whose byte length
    is below its recorded capacity and whose byte at the byte length is
    the terminator. *)
Theorem creation_terminated_within_capacity `{E : env} (fuel : nat) (h : heap) :
  platform_ok E → enough fuel →
  (∀ s, new_args s →
        null_or (a_new fuel s h) h (holds terminated_within_capacity))
  ∧ (∀ src l, new_len_args src l →
        null_or (a_new_len fuel (Some src) l h) h (holds terminated_within_capacity))
  ∧ (∀ l, new_size_args l →
        null_or (a_new_size fuel l h) h (holds terminated_within_capacity))
  ∧ (∀ cp repeat, new_cp_args fuel cp repeat →
        null_or (a_new_cp fuel cp repeat h) h (holds terminated_within_capacity))
  ∧ (∀ chr repeat, new_chr_args fuel chr repeat →
        null_or (a_new_chr fuel (Some chr) repeat h) h (holds terminated_within_capacity))
  ∧ (∀ sp sb, new_dup_args h sp sb → terminated_within_capacity sb →
        null_or (a_new_dup fuel (Some sp) h) h (holds terminated_within_capacity)).
Proof.
  intros Hplat Hfuel. repeat apply conj.
  - intros [src|] [Hpass Hs].
    + destruct Hs as (l & Hl & Hfit & [n Hn]).
      rewrite (a_new_allocated Hplat fuel src l n) by done.
      apply allocated_holds. intros f.
      pose proof (fits_capacity Hplat l Hfit) as [? _].
      apply strlen_bounds in Hl as [? _].
      apply terminated_new_len; lia.
    + rewrite a_new_null_allocated by done.
      apply allocated_holds. intros f.
      apply terminated_new_len; (simpl; unfold A_MIN_STR_SIZE; lia).
  - intros src l (Hfit & Hsrc & [n Hn]).
    rewrite (a_new_len_allocated Hplat fuel src l n) by (done || by left).
    apply allocated_holds. intros f.
    pose proof (fits_capacity Hplat l Hfit) as [? _]. destruct Hfit.
    apply terminated_new_len; lia.
  - intros l [Hl Hfit].
    rewrite a_new_size_allocated by done.
    apply allocated_holds. intros f.
    pose proof (capacity_for_bounds (l + 1)) as [Hmin _]. unfold A_MIN_STR_SIZE in Hmin.
    unfold terminated_within_capacity. simpl. split; [lia|]. split; [lia|].
    apply list_lookup_insert_eq. rewrite length_fmap, length_seq. lia.
  - intros cp repeat (Hnz & Hrange & Hrep & Hfit & Hfuel').
    rewrite a_new_cp_allocated by (done || by right).
    apply allocated_holds. intros f.
    pose proof (fits_capacity Hplat _ Hfit) as [? _].
    pose proof (a_to_utf8_size_bounds cp) as [? ?].
    apply terminated_new_chr; lia.
  - intros chr repeat (c & rest & -> & Hnz & Hlen & Hrep & Hfit & Hfuel').
    rewrite a_new_chr_allocated by (done || by right).
    apply allocated_holds. intros f.
    pose proof (fits_capacity Hplat _ Hfit) as [? _].
    pose proof (a_size_chr_bounds c).
    apply terminated_new_chr; lia.
  - intros sp sb (Hsp & Hfit & Hbuf) (Hsz & Hmem & Hnul).
    rewrite (a_new_dup_allocated Hplat fuel sp sb) by done.
    apply allocated_holds. intros f.
    unfold terminated_within_capacity. simpl. split; [done|]. split; [done|].
    rewrite lookup_app_l by (rewrite length_take; lia).
    rewrite lookup_take_lt by lia. done.
Qed.

Lemma creation_terminated_within_capacity_witness :
  null_or (@a_new debug_build 64 (Some sample_cafe) ∅) ∅
          (holds terminated_within_capacity)
  ∧ null_or (@a_new_len debug_build 64 (Some sample_cafe) 3 ∅) ∅
          (holds terminated_within_capacity)
  ∧ null_or (@a_new_size debug_build 64 100 ∅) ∅
          (holds terminated_within_capacity)
  ∧ null_or (@a_new_cp debug_build 64 233 9 ∅) ∅
          (holds terminated_within_capacity)
  ∧ null_or (@a_new_chr debug_build 64 (Some sample_e_acute) 9 ∅) ∅
          (holds terminated_within_capacity)
  ∧ null_or (@a_new_dup debug_build 64 (Some 5%positive) sample_heap) sample_heap
          (holds terminated_within_capacity).
Proof.
  assert (platform_ok debug_build) as Hplat by (unfold platform_ok; simpl; lia).
  assert (@enough debug_build 64) as Hfuel by (unfold enough; simpl; lia).
  assert (∀ x, 0 ≤ x ≤ 1000 → @fits debug_build x) as Hfits
    by (intros x Hx; unfold fits; simpl; lia).
  destruct (@creation_terminated_within_capacity debug_build 64 ∅ Hplat Hfuel)
    as (Hnew & Hlen & Hsize & Hcp & Hchr & _).
  destruct (@creation_terminated_within_capacity debug_build 64 sample_heap Hplat Hfuel)
    as (_ & _ & _ & _ & _ & Hdup).
  repeat apply conj.
  - apply Hnew. split; [right; reflexivity|].
    exists 5. split; [reflexivity|]. split; [apply Hfits; lia|by exists 4].
  - apply Hlen. split; [apply Hfits; lia|]. split; [simpl; lia|by exists 4].
  - apply Hsize. unfold new_size_args. simpl. lia.
  - apply Hcp. split; [lia|]. split; [unfold A_MIN_CP, A_MAX_CP; lia|].
    split; [lia|]. split; [apply Hfits; simpl; lia|simpl; lia].
  - apply Hchr. exists Byte.xc3, [Byte.xa9].
    split; [reflexivity|]. split; [discriminate|]. split; [by vm_compute|].
    split; [lia|]. split; [apply Hfits; by vm_compute|simpl; lia].
  - apply (Hdup 5%positive sample_block).
    + split; [reflexivity|]. split; [apply Hfits; simpl; lia|simpl; lia].
    + split; [simpl; lia|]. split; [simpl; lia|reflexivity].
Defined.

(** C5: when the allocator returns no storage for the block a creation
    function asks for, the function, called on the arguments it is meant
    for, returns [NULL] and the heap is the one it started from.  The
    refusal is that of the one request the function makes: a function
    that asked again for another size would not satisfy this. *)
Theorem creation_out_of_memory `{E : env} (fuel : nat) (h : heap) :
  platform_ok E → enough fuel →
  (∀ s l, new_args s → strlen (default empty_literal s) = Some l →
        refuses h (l + 2) → a_new fuel s h = Ret None h)
  ∧ (∀ src l, new_len_args src l → refuses h (l + 2) →
        a_new_len fuel (Some src) l h = Ret None h)
  ∧ (∀ l, new_size_args l → refuses h (l + 1) → a_new_size fuel l h = Ret None h)
  ∧ (∀ l, new_size_args l → refuses h (l + 1) → a_new_size_raw fuel l h = Ret None h)
  ∧ (∀ cp repeat, new_cp_args fuel cp repeat →
        refuses h ((a_to_utf8_size cp).2 * repeat + 2) →
        a_new_cp fuel cp repeat h = Ret None h)
  ∧ (∀ c rest repeat, new_chr_args fuel (c :: rest) repeat →
        refuses h (a_size_chr c * repeat + 2) →
        a_new_chr fuel (Some (c :: rest)) repeat h = Ret None h)
  ∧ (∀ sp sb, new_dup_args h sp sb → refuses h (size (hdr sb) + 2) →
        a_new_dup fuel (Some sp) h = Ret None h).
Proof.
  intros Hplat Hfuel. split; [|split; [|split; [|split; [|split; [|split]]]]].
  - intros [src|] l [Hpass Hs] Hl Hno.
    + destruct Hs as (l' & Hl' & Hfit & [n Hn]). simpl in Hl.
      assert (l' = l) as -> by congruence.
      rewrite (a_new_allocated Hplat fuel src l n) by done.
      by apply allocated_refused.
    + injection Hl as <-. rewrite a_new_null_allocated by done.
      rewrite <- (capacity_for_min (0 + 2)) by (unfold A_MIN_STR_SIZE; lia).
      by apply allocated_refused.
  - intros src l (Hfit & Hsrc & [n Hn]) Hno.
    rewrite (a_new_len_allocated Hplat fuel src l n) by (done || by left).
    by apply allocated_refused.
  - intros l [Hl Hfit] Hno. rewrite a_new_size_allocated by done.
    by apply allocated_refused.
  - intros l [Hl Hfit] Hno. rewrite a_new_size_raw_allocated by (done || by left).
    by apply allocated_refused.
  - intros cp repeat (Hnz & Hrange & Hrep & Hfit & Hfuel') Hno.
    rewrite a_new_cp_allocated by (done || by right).
    by apply allocated_refused.
  - intros c rest repeat (c' & rest' & Heq & Hnz & Hlen & Hrep & Hfit & Hfuel') Hno.
    injection Heq as <- <-.
    rewrite a_new_chr_allocated by (done || by right).
    by apply allocated_refused.
  - intros sp sb (Hsp & Hfit & Hbuf) Hno.
    rewrite (a_new_dup_allocated Hplat fuel sp sb) by done.
    by apply allocated_refused.
Qed.

Lemma creation_out_of_memory_witness :
  @a_new debug_build_short 64 (Some sample_cafe) sample_heap = Ret None sample_heap
  ∧ @a_new_len debug_build_short 64 (Some sample_cafe) 3 sample_heap
    = Ret None sample_heap
  ∧ @a_new_size debug_build_short 64 100 sample_heap = Ret None sample_heap
  ∧ @a_new_size_raw debug_build_short 64 100 sample_heap = Ret None sample_heap
  ∧ @a_new_cp debug_build_short 64 233 9 sample_heap = Ret None sample_heap
  ∧ @a_new_chr debug_build_short 64 (Some sample_e_acute) 9 sample_heap
    = Ret None sample_heap
  ∧ @a_new_dup debug_build_short 64 (Some 5%positive) sample_heap
    = Ret None sample_heap.
Proof.
  assert (platform_ok debug_build_short) as Hplat
    by (unfold platform_ok; simpl; lia).
  assert (@enough debug_build_short 64) as Hfuel by (unfold enough; simpl; lia).
  assert (∀ x, 0 ≤ x ≤ 1000 → @fits debug_build_short x) as Hfits
    by (intros x Hx; unfold fits; simpl; lia).
  destruct (@creation_out_of_memory debug_build_short 64 sample_heap Hplat Hfuel)
    as (Hnew & Hlen & Hsize & Hraw & Hcp & Hchr & Hdup).
  split; [|split; [|split; [|split; [|split; [|split]]]]].
  - apply (Hnew (Some sample_cafe) 5).
    + split; [right; reflexivity|].
      exists 5. split; [reflexivity|]. split; [apply Hfits; lia|by exists 4].
    + reflexivity.
    + by vm_compute.
  - apply Hlen; [|by vm_compute].
    split; [apply Hfits; lia|]. split; [simpl; lia|by exists 4].
  - apply Hsize; [|by vm_compute]. unfold new_size_args. simpl. lia.
  - apply Hraw; [|by vm_compute]. unfold new_size_args. simpl. lia.
  - apply Hcp; [|by vm_compute].
    split; [lia|]. split; [unfold A_MIN_CP, A_MAX_CP; lia|].
    split; [lia|]. split; [apply Hfits; simpl; lia|simpl; lia].
  - apply (Hchr Byte.xc3 [Byte.xa9] 9); [|by vm_compute].
    exists Byte.xc3, [Byte.xa9].
    split; [reflexivity|]. split; [discriminate|]. split; [by vm_compute|].
    split; [lia|]. split; [apply Hfits; by vm_compute|simpl; lia].
  - apply (Hdup 5%positive sample_block); [|by vm_compute].
    split; [reflexivity|]. split; [apply Hfits; simpl; lia|simpl; lia].
Defined.

(** C10: [a_new_dup] on a source block whose byte length and terminator
    lie inside its buffer returns [NULL] with the heap untouched, or a
    fresh block, distinct from the source and leaving it as it was, whose
    header ([len], [size] and [mem]) is the source's header, whose first
    [size + 1] bytes are the source's, and whose own buffer has the
    smallest power-of-two size that is at least [A_MIN_STR_SIZE] and at
    least [a_size(s) + 2]: [mem] is copied, not recomputed. *)
Theorem a_new_dup_copies_header `{E : env} (fuel : nat) (sp : positive) (sb : block)
    (h : heap) :
  platform_ok E → enough fuel → new_dup_args h sp sb →
  null_or (a_new_dup fuel (Some sp) h) h
    (λ q h',
       q ≠ sp ∧ h' !! sp = Some sb ∧
       holds (λ db,
                hdr db = hdr sb
                ∧ take (Z.to_nat (size (hdr sb) + 1)) (buf db)
                  = take (Z.to_nat (size (hdr sb) + 1)) (buf sb)
                ∧ least_pow2_geq A_MIN_STR_SIZE (size (hdr sb) + 2)
                                 (Z.of_nat (length (buf db)))) q h').
Proof.
  intros Hplat Hfuel (Hsp & Hfit & Hbuf).
  rewrite (a_new_dup_allocated Hplat fuel sp sb) by done.
  pose proof (fits_capacity Hplat _ Hfit) as [Hlo _]. destruct Hfit as [Hsz _].
  unfold allocated. destruct (allocator h _) as [f|]; simpl; [|done].
  assert (fresh (dom h) ≠ sp) as Hne.
  { intros Heq. pose proof (fresh_unused h) as Hfresh. rewrite Heq in Hfresh. congruence. }
  split; [done|]. split; [by rewrite lookup_insert_ne|].
  eexists. split; [apply lookup_insert_eq|]. simpl.
  split; [done|]. split.
  - apply take_app_length'. rewrite length_take. lia.
  - rewrite length_app, length_take, length_drop, length_fmap, length_seq.
    replace (Z.of_nat (_ + _)) with (capacity_for (size (hdr sb) + 2)) by lia.
    apply capacity_for_least.
Qed.

Lemma a_new_dup_copies_header_witness :
  null_or (@a_new_dup debug_build 64 (Some 5%positive) sample_heap) sample_heap
    (λ q h',
       q ≠ 5%positive ∧ h' !! 5%positive = Some sample_block ∧
       holds (λ db,
                hdr db = Header 2 2 1024
                ∧ take 3 (buf db) = sample_ab
                ∧ least_pow2_geq A_MIN_STR_SIZE 4 (Z.of_nat (length (buf db)))) q h').
Proof.
  apply (@a_new_dup_copies_header debug_build 64 5%positive sample_block sample_heap).
  - unfold platform_ok. simpl. lia.
  - unfold enough. simpl. lia.
  - split; [reflexivity|]. split; [unfold fits; simpl; lia|simpl; lia].
Defined.

(** What [a_new_len] records for the arguments it is meant for: the byte
    length is [l], the stored bytes are the first [l] bytes of the source,
    and the code-point length is [a_len_cstr] of the whole source. *)
Lemma a_new_len_metadata `{E : env} (fuel : nat) (src : list Byte.byte) (l : Z) (h : heap) :
  platform_ok E → enough fuel → new_len_args src l →
  null_or (a_new_len fuel (Some src) l h) h
    (holds (λ b, size (hdr b) = l
                 ∧ take (Z.to_nat l) (buf b) = take (Z.to_nat l) src
                 ∧ Some (len (hdr b)) = a_len_cstr src)).
Proof.
  intros Hplat Hfuel (Hfit & Hsrc & [n Hn]).
  rewrite (a_new_len_allocated Hplat fuel src l n) by (done || by left).
  apply allocated_holds. intros f. simpl. destruct Hfit as [Hl _].
  split; [done|]. split; [|done].
  rewrite take_insert_ge by lia.
  apply take_app_length'. rewrite length_take. lia.
Qed.

(** C1: on the string ["ab"] and the byte count 1, [a_new_len] succeeds
    and stores the one byte ["a"] with byte length 1, which encodes one
    code point, yet records the code-point length 2, the count of the
    whole source. *)
Theorem a_new_len_counts_whole_source :
  ∃ b, @a_new_len debug_build 64 (Some sample_ab) 1 ∅
       = Ret (Some 1%positive) {[ 1%positive := b ]}
       ∧ size (hdr b) = 1
       ∧ take 1 (buf b) = [Byte.x61]
       ∧ buf b !! 1%nat = Some Byte.x00
       ∧ codepoints (take 1 sample_ab) = 1
       ∧ len (hdr b) = 2.
Proof.
  exists (Block (Header 2 1 16) ([Byte.x61; Byte.x00] ++ replicate 14 Byte.xff)).
  split; [by vm_compute|]. by vm_compute.
Qed.

(** C7: with [A_NULL_PASSTHROUGH] on and [assert] compiled out,
    [a_new_len] and [a_new_dup] given [NULL] return [NULL] at once: no
    read through the argument, no allocation, the heap as it was. *)
Theorem null_passthrough `{E : env} (fuel : nat) (l : Z) (h : heap) :
  A_NULL_PASSTHROUGH = true → NDEBUG = true →
  a_new_len fuel None l h = Ret None h ∧ a_new_dup fuel None h = Ret None h.
Proof.
  intros Hpass Hndebug. unfold a_new_len, a_new_dup.
  rewrite !bind_eq, !assert_passes by (by left).
  unfold PASSTHROUGH_ON_FAIL. rewrite Hpass.
  rewrite (bool_decide_false (@None positive ≠ None)) by (intros Hne; by apply Hne).
  rewrite (bool_decide_false (@None (list Byte.byte) ≠ None)) by (intros Hne; by apply Hne).
  done.
Qed.

Lemma null_passthrough_witness :
  @a_new_len passthrough_build 64 None 3 sample_heap = Ret None sample_heap
  ∧ @a_new_dup passthrough_build 64 None sample_heap = Ret None sample_heap.
Proof.
  apply (@null_passthrough passthrough_build 64 3 sample_heap); reflexivity.
Defined.

(** C6, as the code has it: with assertions enabled [a_new_cp] aborts
    exactly when [cp] is 0 or lies outside [A_MIN_CP, A_MAX_CP]; every
    other code point, the surrogates included, passes both assertions. *)
Theorem a_new_cp_aborts_iff `{E : env} (fuel : nat) (cp repeat : Z) (h : heap) :
  NDEBUG = false →
  a_new_cp fuel cp repeat h = Abort ↔ cp = 0 ∨ cp < A_MIN_CP ∨ A_MAX_CP < cp.
Proof.
  intros Hdebug. unfold a_new_cp. rewrite bind_eq.
  destruct (Z.eqb_spec cp 0) as [->|Hnz].
  { rewrite assert_fails by done. split; [by left|done]. }
  rewrite assert_passes by (by right).
  unfold A_ASSERT_CODEPOINT. rewrite bind_eq.
  destruct ((A_MIN_CP <=? cp) && (cp <=? A_MAX_CP)) eqn:Hrange.
  - rewrite assert_passes by (by right).
    apply andb_true_iff in Hrange as [?%Z.leb_le ?%Z.leb_le].
    destruct (a_to_utf8_size cp) as [b sz]. split; [|lia].
    intros Habort. by apply no_abort_a_new_chr_internal in Habort.
  - rewrite assert_fails by done. split; [|done]. intros _. right.
    apply andb_false_iff in Hrange as [?%Z.leb_gt| ?%Z.leb_gt]; lia.
Qed.

Lemma a_new_cp_aborts_iff_witness :
  @a_new_cp debug_build 64 1114112 3 ∅ = Abort
  ↔ 1114112 = 0 ∨ 1114112 < A_MIN_CP ∨ A_MAX_CP < 1114112.
Proof.
  apply (@a_new_cp_aborts_iff debug_build 64 1114112 3 ∅). reflexivity.
Defined.

(** C6 as stated fails: U+D800 is a surrogate, and with assertions
    enabled [a_new_cp] lets it through and returns a string. *)
Lemma a_new_cp_accepts_surrogate :
  55296 ≤ 55296 ≤ 57343
  ∧ @NDEBUG debug_build = false
  ∧ ∃ b, @a_new_cp debug_build 64 55296 1 ∅ = Ret (Some 1%positive) {[ 1%positive := b ]}.
Proof.
  split; [lia|]. split; [reflexivity|].
  exists (Block (Header 1 3 16)
                ([Byte.xed; Byte.xa0; Byte.x80; Byte.x00] ++ replicate 12 Byte.xff)).
  by vm_compute.
Qed.

(** C4, as the code has it: with assertions enabled [a_new] aborts
    exactly when [a_is_valid_utf8] returns a non-null pointer; the
    assertion lets a string through only on a [NULL] result. *)
Theorem a_new_aborts_iff_validator_non_null `{E : env} (fuel : nat) (s : cstring)
    (h : heap) :
  NDEBUG = false →
  a_new fuel s h = Abort ↔ a_is_valid_utf8 (default empty_literal s) ≠ None.
Proof.
  intros Hdebug. unfold a_new, A_ASSERT_UTF8. rewrite bind_eq.
  destruct (a_is_valid_utf8 (default empty_literal s)) as [k|] eqn:Hv.
  - rewrite assert_fails by done. done.
  - rewrite assert_passes by (by right). split; [|done].
    intros Habort. exfalso. revert Habort.
    apply no_abort_bind.
    + destruct s; [apply no_abort_defined|apply no_abort_ret].
    + intros l. apply no_abort_a_new_len.
Qed.

Lemma a_new_aborts_iff_validator_non_null_witness :
  @a_new debug_build_spec_validator 64 None ∅ = Abort
  ↔ a_is_valid_utf8_spec empty_literal ≠ None.
Proof.
  apply (@a_new_aborts_iff_validator_non_null debug_build_spec_validator 64 None ∅).
  reflexivity.
Defined.

(** C4 as stated fails: ["caf\xc3\xa9"] is valid UTF-8, the validator of
    the spec returns the pointer to its end, and with assertions enabled
    [a_new] aborts on it. *)
Lemma a_new_aborts_on_valid_utf8 :
  strlen sample_cafe = Some 5
  ∧ a_is_valid_utf8_spec sample_cafe = Some 5%nat
  ∧ @NDEBUG debug_build_spec_validator = false
  ∧ @a_new debug_build_spec_validator 64 (Some sample_cafe) ∅ = Abort.
Proof. by vm_compute. Qed.

(** C9, as the code has it: [a_new(NULL)] is [a_new("")] outcome for
    outcome and never reads through the null pointer.  When
    [A_ASSERT_UTF8] lets the empty string through (assertions compiled
    out, or [a_is_valid_utf8("")] is [NULL]) and the allocator has storage
    for the minimum block, it returns a handle that was not in the heap,
    to an empty string: byte length 0, code-point length 0, terminator
    first; when the allocator has none it returns [NULL] and the heap as
    it was.  When the assertion does not let the empty string through,
    it aborts. *)
Theorem a_new_null_is_empty `{E : env} (fuel : nat) (h : heap) :
  platform_ok E →
  a_new fuel None h = a_new fuel (Some empty_literal) h
  ∧ a_new fuel None h ≠ Undef
  ∧ (utf8_assertion_passes None →
     is_Some (allocator h (sizeof_header + A_MIN_STR_SIZE)) →
     ∃ p b, h !! p = None
            ∧ a_new fuel None h = Ret (Some p) (<[p := b]> h)
            ∧ size (hdr b) = 0 ∧ len (hdr b) = 0
            ∧ buf b !! 0%nat = Some Byte.x00)
  ∧ (utf8_assertion_passes None →
     allocator h (sizeof_header + A_MIN_STR_SIZE) = None →
     a_new fuel None h = Ret None h)
  ∧ (¬ utf8_assertion_passes None → a_new fuel None h = Abort).
Proof.
  intros Hplat. split; [reflexivity|].
  assert (¬ utf8_assertion_passes None → a_new fuel None h = Abort) as Habort.
  { intros Hno. unfold a_new, A_ASSERT_UTF8. simpl default.
    rewrite bind_eq, assert_fails; [done|..].
    - destruct NDEBUG eqn:Hdebug; [|done]. exfalso. apply Hno. by left.
    - apply bool_decide_eq_false. intros Hv. apply Hno. by right. }
  assert (utf8_assertion_passes None ∨ ¬ utf8_assertion_passes None) as Hcases.
  { unfold utf8_assertion_passes. destruct NDEBUG; [by left; left|].
    destruct (a_is_valid_utf8 (default empty_literal None)); [right|by left; right].
    by intros [?|?]. }
  split; [|split; [|split; [|done]]].
  - destruct Hcases as [Hpass|Hno].
    + rewrite a_new_null_allocated by done. unfold allocated.
      by destruct (allocator h _).
    + by rewrite Habort.
  - intros Hpass [f Hf]. rewrite a_new_null_allocated by done.
    unfold allocated. rewrite Hf.
    exists (fresh (dom h)), (new_len_block empty_literal 0 0 (raw_block f A_MIN_STR_SIZE)).
    split; [apply fresh_unused|]. split; [done|]. by vm_compute.
  - intros Hpass Hno. rewrite a_new_null_allocated by done.
    unfold allocated. by rewrite Hno.
Qed.

Lemma a_new_null_is_empty_witness :
  @a_new debug_build 0 None sample_heap = @a_new debug_build 0 (Some empty_literal) sample_heap
  ∧ @a_new debug_build 0 None sample_heap ≠ Undef
  ∧ ∃ p b, sample_heap !! p = None
           ∧ @a_new debug_build 0 None sample_heap = Ret (Some p) (<[p := b]> sample_heap)
           ∧ size (hdr b) = 0 ∧ len (hdr b) = 0
           ∧ buf b !! 0%nat = Some Byte.x00.
Proof.
  assert (platform_ok debug_build) as Hplat by (unfold platform_ok; simpl; lia).
  destruct (@a_new_null_is_empty debug_build 0 sample_heap Hplat)
    as (Hsame & Hdef & Hempty & _ & _).
  split; [exact Hsame|]. split; [exact Hdef|].
  apply Hempty; [right; reflexivity|by eexists].
Defined.

(** C9 as stated fails: in a build with assertions enabled and the
    validator of the spec, which answers the empty string with the pointer
    to its end, [a_new(NULL)] aborts although the allocator has storage:
    no empty string is returned. *)
Lemma a_new_null_aborts_under_spec_validator :
  @NDEBUG debug_build_spec_validator = false
  ∧ a_is_valid_utf8_spec empty_literal = Some 0%nat
  ∧ is_Some (@allocator debug_build_spec_validator sample_heap
               (@sizeof_header debug_build_spec_validator + A_MIN_STR_SIZE))
  ∧ @a_new debug_build_spec_validator 64 None sample_heap = Abort.
Proof.
  split; [reflexivity|]. split; [reflexivity|]. split; [by eexists|]. by vm_compute.
Qed.

(** C8: once [l + 1] exceeds the largest power of two of [size_t]
    without wrapping, the capacity loop of [a_new_size_raw] never exits:
    whatever the fuel, the call is still inside the loop. *)
Theorem a_new_size_raw_diverges `{E : env} (l : Z) :
  platform_ok E → 2 ^ (SIZE_BITS - 1) < l + 1 < 2 ^ SIZE_BITS →
  ∀ fuel h, a_new_size_raw fuel l h = Diverge.
Proof.
  intros Hplat Hl fuel h. unfold a_new_size_raw.
  rewrite wrap_small by (pose proof (size_bits_pos Hplat); lia).
  rewrite bind_eq, (a_new_size_raw_loop_stuck Hplat); [done|lia|].
  right. exists 4. split; [destruct Hplat; lia|done].
Qed.

Lemma a_new_size_raw_diverges_witness :
  @a_new_size_raw debug_build 1000 (2 ^ 63) sample_heap = Diverge.
Proof.
  apply (@a_new_size_raw_diverges debug_build (2 ^ 63)).
  - unfold platform_ok. simpl. lia.
  - simpl. lia.
Defined.

(** * Further properties of the creation functions *)

(** ** Strings read back *)

(** A buffer that agrees with [s] up to and including the terminator of
    [s] is the same C string. *)
Lemma strlen_prefix (s : list Byte.byte) :
  ∀ (l : Z) (t : list Byte.byte),
  strlen s = Some l →
  take (Z.to_nat (l + 1)) t = take (Z.to_nat (l + 1)) s →
  strlen t = Some l.
Proof.
  induction s as [|c s IH]; intros l t Hs Ht; simpl in Hs; [done|].
  destruct (Byte.eqb c Byte.x00) eqn:Hc.
  - injection Hs as <-. change (Z.to_nat (0 + 1)) with 1%nat in Ht.
    destruct t as [|c' t]; [done|]. simpl in Ht. injection Ht as ->.
    simpl. by rewrite Hc.
  - destruct (strlen s) as [l'|] eqn:Hl'; [|done]. injection Hs as <-.
    pose proof (strlen_bounds s l' Hl') as [? _].
    replace (Z.to_nat (Z.succ l' + 1)) with (S (Z.to_nat (l' + 1))) in Ht by lia.
    destruct t as [|c' t]; [done|]. simpl in Ht. injection Ht as -> Ht.
    simpl. rewrite Hc. by rewrite (IH l' t eq_refl Ht).
Qed.

Lemma new_len_block_prefix (src : list Byte.byte) (l n c : Z) (f : fresh_storage) :
  0 ≤ l → l ≤ Z.of_nat (length src) → l + 2 ≤ c →
  take (Z.to_nat l) (buf (new_len_block src l n (raw_block f c))) = take (Z.to_nat l) src
  ∧ buf (new_len_block src l n (raw_block f c)) !! Z.to_nat l = Some Byte.x00
  ∧ Z.of_nat (length (buf (new_len_block src l n (raw_block f c)))) = c.
Proof.
  intros Hl Hsrc Hc. simpl. split; [|split].
  - rewrite take_insert_ge by lia. apply take_app_length'. rewrite length_take. lia.
  - apply list_lookup_insert_eq.
    rewrite length_app, length_take, length_drop, length_fmap, length_seq. lia.
  - rewrite length_insert, length_app, length_take, length_drop, length_fmap, length_seq.
    lia.
Qed.

(** X1: [a_new_size l] returns [NULL] or an empty string: byte length 0,
    code-point length 0, terminator first, and a buffer of exactly [mem]
    bytes where [mem] is the smallest power of two holding [l] bytes and
    a terminator (and at least [A_MIN_STR_SIZE]). *)
Theorem a_new_size_empty `{E : env} (fuel : nat) (l : Z) (h : heap) :
  platform_ok E → new_size_args l → enough fuel →
  null_or (a_new_size fuel l h) h
    (holds (λ b, size (hdr b) = 0 ∧ len (hdr b) = 0
                 ∧ buf b !! 0%nat = Some Byte.x00
                 ∧ least_pow2_geq A_MIN_STR_SIZE (l + 1) (mem (hdr b))
                 ∧ Z.of_nat (length (buf b)) = mem (hdr b))).
Proof.
  intros Hplat [Hl Hfit] Hfuel. rewrite a_new_size_allocated by done.
  apply allocated_holds. intros f. simpl.
  pose proof (capacity_for_bounds (l + 1)) as [Hmin _]. unfold A_MIN_STR_SIZE in Hmin.
  split; [done|]. split; [done|]. split; [|split].
  - apply list_lookup_insert_eq. rewrite length_fmap, length_seq. lia.
  - apply capacity_for_least.
  - rewrite length_insert, length_fmap, length_seq. lia.
Qed.

Lemma a_new_size_empty_witness :
  null_or (@a_new_size debug_build 64 100 sample_heap) sample_heap
    (holds (λ b, size (hdr b) = 0 ∧ len (hdr b) = 0
                 ∧ buf b !! 0%nat = Some Byte.x00
                 ∧ least_pow2_geq A_MIN_STR_SIZE (100 + 1) (mem (hdr b))
                 ∧ Z.of_nat (length (buf b)) = mem (hdr b))).
Proof.
  apply (@a_new_size_empty debug_build 64 100 sample_heap).
  - unfold platform_ok. simpl. lia.
  - unfold new_size_args. simpl. lia.
  - unfold enough. simpl. lia.
Defined.

(** X2: [a_new_len s l] returns [NULL] or a string that holds the first
    [l] bytes of [s] followed by the terminator, with byte length [l];
    its capacity is the smallest power of two that is at least
    [A_MIN_STR_SIZE] and at least [l + 2], one byte more than the [l]
    bytes and the terminator need, and the buffer has that many bytes. *)
Theorem a_new_len_copies_prefix `{E : env} (fuel : nat) (src : list Byte.byte) (l : Z)
    (h : heap) :
  platform_ok E → enough fuel → new_len_args src l →
  null_or (a_new_len fuel (Some src) l h) h
    (holds (λ b, size (hdr b) = l
                 ∧ take (Z.to_nat l) (buf b) = take (Z.to_nat l) src
                 ∧ buf b !! Z.to_nat l = Some Byte.x00
                 ∧ least_pow2_geq A_MIN_STR_SIZE (l + 2) (mem (hdr b))
                 ∧ Z.of_nat (length (buf b)) = mem (hdr b))).
Proof.
  intros Hplat Hfuel (Hfit & Hsrc & [n Hn]).
  rewrite (a_new_len_allocated Hplat fuel src l n) by (done || by left).
  pose proof (fits_capacity Hplat l Hfit) as [Hlo _]. destruct Hfit as [Hl _].
  apply allocated_holds. intros f.
  destruct (new_len_block_prefix src l n (capacity_for (l + 2)) f) as (Htake & Hnul & Hlen);
    [done..|].
  split; [done|]. split; [exact Htake|]. split; [exact Hnul|].
  split; [apply capacity_for_least|exact Hlen].
Qed.

Lemma a_new_len_copies_prefix_witness :
  null_or (@a_new_len debug_build 64 (Some sample_cafe) 3 sample_heap) sample_heap
    (holds (λ b, size (hdr b) = 3
                 ∧ take (Z.to_nat 3) (buf b) = take (Z.to_nat 3) sample_cafe
                 ∧ buf b !! Z.to_nat 3 = Some Byte.x00
                 ∧ least_pow2_geq A_MIN_STR_SIZE (3 + 2) (mem (hdr b))
                 ∧ Z.of_nat (length (buf b)) = mem (hdr b))).
Proof.
  apply (@a_new_len_copies_prefix debug_build 64 sample_cafe 3 sample_heap).
  - unfold platform_ok. simpl. lia.
  - unfold enough. simpl. lia.
  - split; [unfold fits; simpl; lia|]. split; [simpl; lia|by exists 4].
Defined.

(** X3: a string built by [a_new s] reads back as [s]: the buffer, taken
    as a C string, has the length of [s], which is the recorded byte
    length, and its bytes up to and including the terminator are those of
    [s]; the recorded code-point length is [a_len_cstr s]. *)
Theorem a_new_reads_back `{E : env} (fuel : nat) (src : list Byte.byte) (h : heap) :
  platform_ok E → enough fuel → new_args (Some src) →
  null_or (a_new fuel (Some src) h) h
    (holds (λ b, strlen (buf b) = strlen src
                 ∧ Some (size (hdr b)) = strlen src
                 ∧ take (Z.to_nat (size (hdr b) + 1)) (buf b)
                   = take (Z.to_nat (size (hdr b) + 1)) src
                 ∧ Some (len (hdr b)) = a_len_cstr src)).
Proof.
  intros Hplat Hfuel (Hpass & l & Hl & Hfit & [n Hn]).
  rewrite (a_new_allocated Hplat fuel src l n) by done.
  pose proof (fits_capacity Hplat l Hfit) as [Hlo _]. destruct Hfit as [Hl0 _].
  pose proof (strlen_bounds src l Hl) as [Hlen Hnul].
  apply allocated_holds. intros f.
  destruct (new_len_block_prefix src l n (capacity_for (l + 2)) f)
    as (Htake & Hnul' & _); [lia..|].
  assert (take (Z.to_nat (l + 1)) (buf (new_len_block src l n (raw_block f (capacity_for (l + 2)))))
          = take (Z.to_nat (l + 1)) src) as Hsame.
  { replace (Z.to_nat (l + 1)) with (S (Z.to_nat l)) by lia.
    rewrite (take_S_r _ _ _ Hnul'), (take_S_r _ _ _ Hnul). by rewrite Htake. }
  split; [|split; [|split]].
  - rewrite Hl. by apply (strlen_prefix src).
  - by rewrite Hl.
  - exact Hsame.
  - by rewrite Hn.
Qed.

Lemma a_new_reads_back_witness :
  null_or (@a_new debug_build 64 (Some sample_cafe) sample_heap) sample_heap
    (holds (λ b, strlen (buf b) = strlen sample_cafe
                 ∧ Some (size (hdr b)) = strlen sample_cafe
                 ∧ take (Z.to_nat (size (hdr b) + 1)) (buf b)
                   = take (Z.to_nat (size (hdr b) + 1)) sample_cafe
                 ∧ Some (len (hdr b)) = a_len_cstr sample_cafe)).
Proof.
  apply (@a_new_reads_back debug_build 64 sample_cafe sample_heap).
  - unfold platform_ok. simpl. lia.
  - unfold enough. simpl. lia.
  - split; [right; reflexivity|].
    exists 5. split; [reflexivity|]. split; [unfold fits; simpl; lia|by exists 4].
Defined.

(** X4: when [l] reaches past the terminator of [s], [a_new_len s l]
    still records byte length [l], but the buffer read as a C string ends
    where [s] ends: the recorded byte length exceeds the string's. *)
Theorem a_new_len_past_terminator `{E : env} (fuel : nat) (src : list Byte.byte)
    (k l : Z) (h : heap) :
  platform_ok E → enough fuel → new_len_args src l →
  strlen src = Some k → k < l →
  null_or (a_new_len fuel (Some src) l h) h
    (holds (λ b, size (hdr b) = l ∧ strlen (buf b) = Some k)).
Proof.
  intros Hplat Hfuel (Hfit & Hsrc & [n Hn]) Hk Hkl.
  rewrite (a_new_len_allocated Hplat fuel src l n) by (done || by left).
  pose proof (fits_capacity Hplat l Hfit) as [Hlo _]. destruct Hfit as [Hl _].
  pose proof (strlen_bounds src k Hk) as [Hk0 _].
  apply allocated_holds. intros f.
  destruct (new_len_block_prefix src l n (capacity_for (l + 2)) f) as (Htake & _ & _);
    [done..|].
  split; [done|]. apply (strlen_prefix src); [done|].
  assert (∀ t : list Byte.byte,
            take (Z.to_nat (k + 1)) t = take (Z.to_nat (k + 1)) (take (Z.to_nat l) t))
    as Hshort by (intros t; rewrite take_take; f_equal; lia).
  rewrite (Hshort (buf _)), Htake. by rewrite <- Hshort.
Qed.

Lemma a_new_len_past_terminator_witness :
  null_or (@a_new_len debug_build 64 (Some sample_a_nul_b) 3 sample_heap) sample_heap
    (holds (λ b, size (hdr b) = 3 ∧ strlen (buf b) = Some 1)).
Proof.
  apply (@a_new_len_past_terminator debug_build 64 sample_a_nul_b 1 3 sample_heap).
  - unfold platform_ok. simpl. lia.
  - unfold enough. simpl. lia.
  - split; [unfold fits; simpl; lia|]. split; [simpl; lia|by exists 1].
  - reflexivity.
  - lia.
Defined.

(** ** Repeated characters *)

Lemma new_chr_block_contents (chr : list Byte.byte) (sz repeat c : Z) (f : fresh_storage) :
  0 < sz ≤ Z.of_nat (length chr) → 0 ≤ repeat → sz * repeat + 2 ≤ c →
  take (Z.to_nat (sz * repeat)) (buf (new_chr_block chr sz repeat (raw_block f c)))
  = concat (replicate (Z.to_nat repeat) (take (Z.to_nat sz) chr)).
Proof.
  intros Hsz Hrep Hc. simpl. rewrite take_insert_ge by lia.
  apply take_app_length'. rewrite concat_replicate_length, length_take. nia.
Qed.

(** X5: [a_new_chr_internal chr size repeat] returns [NULL] or a string
    made of [repeat] copies of the first [size] bytes of [chr] followed
    by the terminator, with byte length [size * repeat] and code-point
    length [repeat]. *)
Theorem a_new_chr_internal_repeats `{E : env} (fuel : nat) (chr : list Byte.byte)
    (sz repeat : Z) (h : heap) :
  platform_ok E → enough fuel →
  0 < sz ≤ Z.of_nat (length chr) → repeat_args fuel sz repeat →
  null_or (a_new_chr_internal fuel chr sz repeat h) h
    (holds (λ b, size (hdr b) = sz * repeat ∧ len (hdr b) = repeat
                 ∧ take (Z.to_nat (sz * repeat)) (buf b)
                   = concat (replicate (Z.to_nat repeat) (take (Z.to_nat sz) chr))
                 ∧ buf b !! Z.to_nat (sz * repeat) = Some Byte.x00)).
Proof.
  intros Hplat Hfuel Hsz (Hrep & Hfit & Hfuel').
  rewrite a_new_chr_internal_allocated by done.
  pose proof (fits_capacity Hplat _ Hfit) as [Hlo _].
  apply allocated_holds. intros f.
  split; [done|]. split; [done|]. split.
  - by apply new_chr_block_contents.
  - by apply (terminated_new_chr chr sz repeat _ f).
Qed.

Lemma a_new_chr_internal_repeats_witness :
  null_or (@a_new_chr_internal debug_build 64 sample_e_acute 2 3 sample_heap) sample_heap
    (holds (λ b, size (hdr b) = 2 * 3 ∧ len (hdr b) = 3
                 ∧ take (Z.to_nat (2 * 3)) (buf b)
                   = concat (replicate (Z.to_nat 3) (take (Z.to_nat 2) sample_e_acute))
                 ∧ buf b !! Z.to_nat (2 * 3) = Some Byte.x00)).
Proof.
  apply (@a_new_chr_internal_repeats debug_build 64 sample_e_acute 2 3 sample_heap).
  - unfold platform_ok. simpl. lia.
  - unfold enough. simpl. lia.
  - simpl. lia.
  - split; [lia|]. split; [unfold fits; simpl; lia|simpl; lia].
Defined.

(** Walking [k] copies of one complete sequence counts [k] code points. *)
Lemma codepoints_walk_replicate (c : Byte.byte) (rest : list Byte.byte) (k : nat) :
  ∀ steps : nat,
  Z.to_nat (a_size_chr c) = length (c :: rest) → (k ≤ steps)%nat →
  codepoints_walk steps (concat (replicate k (c :: rest))) = Z.of_nat k.
Proof.
  induction k as [|k IH]; intros steps Hlen Hsteps.
  - by destruct steps.
  - destruct steps as [|steps]; [lia|].
    change (concat (replicate (S k) (c :: rest)))
      with (c :: (rest ++ concat (replicate k (c :: rest)))).
    cbn [codepoints_walk].
    change (c :: (rest ++ concat (replicate k (c :: rest))))
      with ((c :: rest) ++ concat (replicate k (c :: rest))).
    rewrite drop_app_length' by done.
    rewrite IH by (done || lia). lia.
Qed.

(** X6: for [a_new_chr] on a leading byte followed by the rest of its
    sequence, the recorded code-point length agrees with the stored
    bytes: walking the [size] bytes of the buffer by leading-byte lengths
    counts exactly [len] code points. *)
Theorem a_new_chr_metadata_agrees `{E : env} (fuel : nat) (chr : list Byte.byte)
    (repeat : Z) (h : heap) :
  platform_ok E → enough fuel → new_chr_args fuel chr repeat →
  null_or (a_new_chr fuel (Some chr) repeat h) h
    (holds (λ b, len (hdr b) = repeat
                 ∧ codepoints (take (Z.to_nat (size (hdr b))) (buf b)) = len (hdr b))).
Proof.
  intros Hplat Hfuel (c & rest & -> & Hnz & Hlen & Hrep & Hfit & Hfuel').
  rewrite a_new_chr_allocated by (done || by right).
  pose proof (fits_capacity Hplat _ Hfit) as [Hlo _].
  pose proof (a_size_chr_bounds c) as Hsz.
  apply allocated_holds. intros f. split; [done|].
  change (size (hdr (new_chr_block (c :: rest) (a_size_chr c) repeat
                       (raw_block f (capacity_for (a_size_chr c * repeat + 2))))))
    with (a_size_chr c * repeat).
  rewrite new_chr_block_contents by (done || lia).
  unfold codepoints.
  assert (take (Z.to_nat (a_size_chr c)) (c :: rest)
          = c :: take (Z.to_nat (a_size_chr c) - 1) rest) as Hpiece.
  { destruct (Z.to_nat (a_size_chr c)) as [|m] eqn:Hm; [lia|].
    simpl. by rewrite Nat.sub_0_r. }
  rewrite Hpiece.
  rewrite codepoints_walk_replicate.
  - simpl. lia.
  - simpl. rewrite length_take. simpl in Hlen. lia.
  - rewrite concat_replicate_length. simpl. nia.
Qed.

Lemma a_new_chr_metadata_agrees_witness :
  null_or (@a_new_chr debug_build 64 (Some sample_e_acute) 9 sample_heap) sample_heap
    (holds (λ b, len (hdr b) = 9
                 ∧ codepoints (take (Z.to_nat (size (hdr b))) (buf b)) = len (hdr b))).
Proof.
  apply (@a_new_chr_metadata_agrees debug_build 64 sample_e_acute 9 sample_heap).
  - unfold platform_ok. simpl. lia.
  - unfold enough. simpl. lia.
  - exists Byte.xc3, [Byte.xa9].
    split; [reflexivity|]. split; [discriminate|]. split; [by vm_compute|].
    split; [lia|]. split; [unfold fits; by vm_compute|simpl; lia].
Defined.

(** X7: when the product [size * repeat] wraps to 0 (or is 0),
    [a_new_chr_internal] returns an empty string whose code-point length
    is nevertheless [repeat]: the product is not checked for overflow. *)
Theorem a_new_chr_internal_wrapped_product `{E : env} (fuel : nat)
    (chr : list Byte.byte) (sz repeat : Z) (h : heap) :
  platform_ok E → wrap (sz * repeat) = 0 →
  null_or (a_new_chr_internal fuel chr sz repeat h) h
    (holds (λ b, size (hdr b) = 0 ∧ len (hdr b) = repeat
                 ∧ buf b !! 0%nat = Some Byte.x00)).
Proof.
  intros Hplat Hwrap. unfold a_new_chr_internal. rewrite Hwrap.
  pose proof (min_size_fits Hplat) as Hmin. unfold A_MIN_STR_SIZE in Hmin.
  rewrite (wrap_fits Hplat) by lia.
  rewrite bind_eq, a_new_size_raw_allocated
    by (done || lia || (right; unfold A_MIN_STR_SIZE; lia)).
  unfold allocated, id. destruct (allocator h _) as [f|]; [|done].
  pose proof (capacity_for_bounds (0 + 1 + 1)) as [Hcap _]. unfold A_MIN_STR_SIZE in Hcap.
  assert (a_new_chr_internal_loop fuel (fresh (dom h)) chr sz 0 0
            (<[fresh (dom h) := raw_block f (capacity_for (0 + 1 + 1))]> h)
          = Ret () (<[fresh (dom h) := raw_block f (capacity_for (0 + 1 + 1))]> h))
    as Hloop by (by destruct fuel).
  rewrite bind_eq, Hloop.
  rewrite bind_eq, poke_str_insert by (rewrite raw_block_length; lia).
  rewrite bind_eq, set_len_insert, bind_eq, set_size_insert.
  cbn [null_or holds]. eexists. split; [apply lookup_insert_eq|]. cbn [size len hdr buf].
  split; [done|]. split; [done|].
  by rewrite capacity_for_min by (unfold A_MIN_STR_SIZE; lia).
Qed.

Lemma a_new_chr_internal_wrapped_product_witness :
  null_or (@a_new_chr_internal debug_build 0 sample_e_acute 2 (2 ^ 63) sample_heap)
          sample_heap
    (holds (λ b, size (hdr b) = 0 ∧ len (hdr b) = 2 ^ 63
                 ∧ buf b !! 0%nat = Some Byte.x00)).
Proof.
  apply (@a_new_chr_internal_wrapped_product debug_build 0 sample_e_acute 2 (2 ^ 63)
           sample_heap).
  - unfold platform_ok. simpl. lia.
  - reflexivity.
Defined.

(** ** The heap around a new string *)

Lemma allocated_adds_block `{E : env} (h : heap) (c : Z) (finish : block → block) :
  null_or (allocated h c finish) h (adds_block h).
Proof.
  unfold allocated. destruct (allocator h _) as [f|]; simpl; [|done].
  split; [apply fresh_unused|]. split.
  - rewrite lookup_insert_eq. by eexists.
  - intros q Hq. by rewrite lookup_insert_ne.
Qed.

(** X8: a creation function that returns a string returns a handle the
    heap did not hold before and leaves every block that was there as it
    was: no existing string is written to or aliased. *)
Theorem creation_adds_one_block `{E : env} (fuel : nat) (h : heap) :
  platform_ok E → enough fuel →
  (∀ s, new_args s → null_or (a_new fuel s h) h (adds_block h))
  ∧ (∀ src l, new_len_args src l →
        null_or (a_new_len fuel (Some src) l h) h (adds_block h))
  ∧ (∀ l, new_size_args l → null_or (a_new_size fuel l h) h (adds_block h))
  ∧ (∀ l, new_size_args l → null_or (a_new_size_raw fuel l h) h (adds_block h))
  ∧ (∀ cp repeat, new_cp_args fuel cp repeat →
        null_or (a_new_cp fuel cp repeat h) h (adds_block h))
  ∧ (∀ chr repeat, new_chr_args fuel chr repeat →
        null_or (a_new_chr fuel (Some chr) repeat h) h (adds_block h))
  ∧ (∀ sp sb, new_dup_args h sp sb →
        null_or (a_new_dup fuel (Some sp) h) h (adds_block h)).
Proof.
  intros Hplat Hfuel. repeat apply conj.
  - intros [src|] [Hpass Hs].
    + destruct Hs as (l & Hl & Hfit & [n Hn]).
      rewrite (a_new_allocated Hplat fuel src l n) by done.
      apply allocated_adds_block.
    + rewrite a_new_null_allocated by done. apply allocated_adds_block.
  - intros src l (Hfit & Hsrc & [n Hn]).
    rewrite (a_new_len_allocated Hplat fuel src l n) by (done || by left).
    apply allocated_adds_block.
  - intros l [Hl Hfit]. rewrite a_new_size_allocated by done.
    apply allocated_adds_block.
  - intros l [Hl Hfit]. rewrite a_new_size_raw_allocated by (done || by left).
    apply allocated_adds_block.
  - intros cp repeat (Hnz & Hrange & Hrep & Hfit & Hfuel').
    rewrite a_new_cp_allocated by (done || by right).
    apply allocated_adds_block.
  - intros chr repeat (c & rest & -> & Hnz & Hlen & Hrep & Hfit & Hfuel').
    rewrite a_new_chr_allocated by (done || by right).
    apply allocated_adds_block.
  - intros sp sb (Hsp & Hfit & Hbuf).
    rewrite (a_new_dup_allocated Hplat fuel sp sb) by done.
    apply allocated_adds_block.
Qed.

Lemma creation_adds_one_block_witness :
  null_or (@a_new debug_build 64 (Some sample_cafe) sample_heap) sample_heap
          (adds_block sample_heap)
  ∧ null_or (@a_new_len debug_build 64 (Some sample_cafe) 3 sample_heap) sample_heap
          (adds_block sample_heap)
  ∧ null_or (@a_new_size debug_build 64 100 sample_heap) sample_heap
          (adds_block sample_heap)
  ∧ null_or (@a_new_size_raw debug_build 64 100 sample_heap) sample_heap
          (adds_block sample_heap)
  ∧ null_or (@a_new_cp debug_build 64 233 9 sample_heap) sample_heap
          (adds_block sample_heap)
  ∧ null_or (@a_new_chr debug_build 64 (Some sample_e_acute) 9 sample_heap) sample_heap
          (adds_block sample_heap)
  ∧ null_or (@a_new_dup debug_build 64 (Some 5%positive) sample_heap) sample_heap
          (adds_block sample_heap).
Proof.
  assert (platform_ok debug_build) as Hplat by (unfold platform_ok; simpl; lia).
  assert (@enough debug_build 64) as Hfuel by (unfold enough; simpl; lia).
  assert (∀ x, 0 ≤ x ≤ 1000 → @fits debug_build x) as Hfits
    by (intros x Hx; unfold fits; simpl; lia).
  destruct (@creation_adds_one_block debug_build 64 sample_heap Hplat Hfuel)
    as (Hnew & Hlen & Hsize & Hraw & Hcp & Hchr & Hdup).
  split; [|split; [|split; [|split; [|split; [|split]]]]].
  - apply Hnew. split; [right; reflexivity|].
    exists 5. split; [reflexivity|]. split; [apply Hfits; lia|by exists 4].
  - apply Hlen. split; [apply Hfits; lia|]. split; [simpl; lia|by exists 4].
  - apply Hsize. unfold new_size_args. simpl. lia.
  - apply Hraw. unfold new_size_args. simpl. lia.
  - apply Hcp. split; [lia|]. split; [unfold A_MIN_CP, A_MAX_CP; lia|].
    split; [lia|]. split; [apply Hfits; simpl; lia|simpl; lia].
  - apply Hchr. exists Byte.xc3, [Byte.xa9].
    split; [reflexivity|]. split; [discriminate|]. split; [by vm_compute|].
    split; [lia|]. split; [apply Hfits; by vm_compute|simpl; lia].
  - apply (Hdup 5%positive sample_block).
    split; [reflexivity|]. split; [apply Hfits; simpl; lia|simpl; lia].
Defined.

(** ** The capacity loop *)

Lemma capacity_for_below_double (x : Z) :
  capacity_for x = A_MIN_STR_SIZE ∨ capacity_for x < 2 * x.
Proof.
  destruct (Z.le_gt_cases x A_MIN_STR_SIZE) as [Hle|Hgt].
  - left. by apply capacity_for_min.
  - right. unfold capacity_for, A_MIN_STR_SIZE in *.
    assert (1 < x) as Hx by lia.
    pose proof (Z.log2_up_spec x Hx) as [Hlow Hup].
    assert (4 < Z.log2_up x).
    { apply Z.nle_gt. intros Hle. apply Z.log2_up_le_pow2 in Hle; lia. }
    rewrite Z.max_r by lia.
    replace (Z.log2_up x) with (Z.succ (Z.pred (Z.log2_up x))) at 1 by lia.
    rewrite Z.pow_succ_r by lia. lia.
Qed.

(** X9: the capacity [a_new_size_raw] records is the minimum or less than
    twice the incremented request: doubling never over-allocates by a
    factor of two or more. *)
Theorem a_new_size_raw_below_double `{E : env} (fuel : nat) (l : Z) (h : heap) :
  platform_ok E → new_size_args l → enough fuel →
  null_or (a_new_size_raw fuel l h) h
    (holds (λ b, mem (hdr b) = A_MIN_STR_SIZE ∨ mem (hdr b) < 2 * (l + 1))).
Proof.
  intros Hplat [Hl Hfit] Hfuel.
  rewrite a_new_size_raw_allocated by (done || by left).
  apply allocated_holds. intros f. apply capacity_for_below_double.
Qed.

Lemma a_new_size_raw_below_double_witness :
  null_or (@a_new_size_raw debug_build 64 100 sample_heap) sample_heap
    (holds (λ b, mem (hdr b) = A_MIN_STR_SIZE ∨ mem (hdr b) < 2 * (100 + 1))).
Proof.
  apply (@a_new_size_raw_below_double debug_build 64 100 sample_heap).
  - unfold platform_ok. simpl. lia.
  - unfold new_size_args. simpl. lia.
  - unfold enough. simpl. lia.
Defined.

Lemma allocated_not_diverge `{E : env} (h : heap) (c : Z) (finish : block → block) :
  allocated h c finish ≠ Diverge.
Proof. unfold allocated. by destruct (allocator h _). Qed.

(** X10: for a [size_t] value [l], the capacity loop of
    [a_new_size_raw] exits for some amount of fuel exactly when [l + 1]
    is at most the largest power of two of [size_t], or [l] is the
    largest [size_t] value, whose increment wraps to 0. *)
Theorem a_new_size_raw_terminates_iff `{E : env} (l : Z) (h : heap) :
  platform_ok E → 0 ≤ l < 2 ^ SIZE_BITS →
  (∃ fuel, a_new_size_raw fuel l h ≠ Diverge)
  ↔ l + 1 ≤ 2 ^ (SIZE_BITS - 1) ∨ l = 2 ^ SIZE_BITS - 1.
Proof.
  intros Hplat Hl. split.
  - intros [fuel Hret].
    destruct (Z.le_gt_cases (l + 1) (2 ^ (SIZE_BITS - 1))) as [|Hbig]; [by left|].
    destruct (Z.eq_dec l (2 ^ SIZE_BITS - 1)) as [|Hne]; [by right|].
    exfalso. apply Hret. unfold a_new_size_raw.
    rewrite wrap_small by lia.
    rewrite bind_eq, (a_new_size_raw_loop_stuck Hplat); [done|lia|].
    right. exists 4. split; [destruct Hplat; lia|done].
  - intros [Hfit| ->].
    + exists (Z.to_nat SIZE_BITS).
      rewrite a_new_size_raw_allocated by (done || lia || (left; unfold enough; lia)).
      apply allocated_not_diverge.
    + exists 0%nat. rewrite a_new_size_raw_wraps by done.
      apply allocated_not_diverge.
Qed.

Lemma a_new_size_raw_terminates_iff_witness :
  (∃ fuel, @a_new_size_raw debug_build fuel (2 ^ 64 - 1) sample_heap ≠ Diverge)
  ↔ 2 ^ 64 - 1 + 1 ≤ 2 ^ (64 - 1) ∨ 2 ^ 64 - 1 = 2 ^ 64 - 1.
Proof.
  apply (@a_new_size_raw_terminates_iff debug_build (2 ^ 64 - 1) sample_heap).
  - unfold platform_ok. simpl. lia.
  - simpl. lia.
Defined.

(** X11: on the largest [size_t] value the increment wraps:
    [a_new_size_raw] and [a_new_size] return [NULL] or a block of the
    minimum capacity, far below the request, for any fuel. *)
Theorem creation_of_size_max `{E : env} (fuel : nat) (h : heap) :
  platform_ok E →
  null_or (a_new_size_raw fuel (2 ^ SIZE_BITS - 1) h) h
    (holds (λ b, mem (hdr b) = A_MIN_STR_SIZE
                 ∧ Z.of_nat (length (buf b)) = A_MIN_STR_SIZE
                 ∧ mem (hdr b) < 2 ^ SIZE_BITS - 1))
  ∧ null_or (a_new_size fuel (2 ^ SIZE_BITS - 1) h) h
    (holds (λ b, mem (hdr b) = A_MIN_STR_SIZE ∧ size (hdr b) = 0
                 ∧ buf b !! 0%nat = Some Byte.x00
                 ∧ mem (hdr b) < 2 ^ SIZE_BITS - 1)).
Proof.
  intros Hplat.
  pose proof (min_size_fits Hplat) as Hmin. pose proof (size_max_half Hplat) as Hhalf.
  split.
  - rewrite a_new_size_raw_wraps by done.
    apply allocated_holds. intros f. unfold id, A_MIN_STR_SIZE in *. simpl.
    split; [done|]. split; [|lia]. done.
  - unfold a_new_size. rewrite bind_eq, a_new_size_raw_wraps by done.
    unfold allocated, id. destruct (allocator h _) as [f|]; [|done].
    rewrite bind_eq, poke_str_insert by (rewrite raw_block_length; unfold A_MIN_STR_SIZE; lia).
    rewrite bind_eq, set_len_insert, bind_eq, set_size_insert.
    cbn [null_or holds]. eexists. split; [apply lookup_insert_eq|].
    cbn [size len mem hdr buf raw_block]. unfold A_MIN_STR_SIZE in *.
    split; [done|]. split; [done|]. split; [done|lia].
Qed.

Lemma creation_of_size_max_witness :
  null_or (@a_new_size_raw debug_build 0 (2 ^ 64 - 1) sample_heap) sample_heap
    (holds (λ b, mem (hdr b) = A_MIN_STR_SIZE
                 ∧ Z.of_nat (length (buf b)) = A_MIN_STR_SIZE
                 ∧ mem (hdr b) < 2 ^ 64 - 1))
  ∧ null_or (@a_new_size debug_build 0 (2 ^ 64 - 1) sample_heap) sample_heap
    (holds (λ b, mem (hdr b) = A_MIN_STR_SIZE ∧ size (hdr b) = 0
                 ∧ buf b !! 0%nat = Some Byte.x00
                 ∧ mem (hdr b) < 2 ^ 64 - 1)).
Proof.
  apply (@creation_of_size_max debug_build 0 sample_heap).
  unfold platform_ok. simpl. lia.
Defined.

(** ** NULL arguments and build options *)

(** X12: with assertions enabled, [a_new_len] and [a_new_dup] abort on
    [NULL] whether or not [A_NULL_PASSTHROUGH] is on: the assertion runs
    before the passthrough test. *)
Theorem null_aborts_with_assertions `{E : env} (fuel : nat) (l : Z) (h : heap) :
  NDEBUG = false →
  a_new_len fuel None l h = Abort ∧ a_new_dup fuel None h = Abort.
Proof.
  intros Hdebug. unfold a_new_len, a_new_dup.
  rewrite !bind_eq, !assert_fails; [done|done|..].
  - apply bool_decide_eq_false. intros Hne. by apply Hne.
  - done.
  - apply bool_decide_eq_false. intros Hne. by apply Hne.
Qed.

Lemma null_aborts_with_assertions_witness :
  @a_new_len (lp64 false true a_is_valid_utf8_spec generous) 64 None 3 sample_heap = Abort
  ∧ @a_new_dup (lp64 false true a_is_valid_utf8_spec generous) 64 None sample_heap = Abort.
Proof.
  apply (@null_aborts_with_assertions (lp64 false true a_is_valid_utf8_spec generous)
           64 3 sample_heap).
  reflexivity.
Defined.

(** X13: with assertions compiled out and [A_NULL_PASSTHROUGH] off,
    [a_new_dup(NULL)] reads through the null pointer, and
    [a_new_len(NULL, l)] allocates first: it returns [NULL] if the
    allocator has no storage and otherwise copies from the null
    pointer. *)
Theorem null_unchecked `{E : env} (fuel : nat) (l : Z) (h : heap) :
  platform_ok E → enough fuel → fits l →
  NDEBUG = true → A_NULL_PASSTHROUGH = false →
  a_new_dup fuel None h = Undef
  ∧ a_new_len fuel None l h
    = match allocator h (sizeof_header + capacity_for (l + 2)) with
      | None => Ret None h
      | Some _ => Undef
      end.
Proof.
  intros Hplat Hfuel [Hl Hfit] Hndebug Hpass. unfold a_new_dup, a_new_len.
  rewrite !bind_eq, !assert_passes by (by left).
  unfold PASSTHROUGH_ON_FAIL. rewrite Hpass. cbn [andb].
  split; [done|].
  rewrite (wrap_fits Hplat) by lia.
  rewrite bind_eq, a_new_size_raw_allocated by (done || lia || by left).
  replace (l + 1 + 1) with (l + 2) by lia.
  unfold allocated. by destruct (allocator h _).
Qed.

Lemma null_unchecked_witness :
  @a_new_dup release_build 64 None sample_heap = Undef
  ∧ @a_new_len release_build 64 None 3 sample_heap
    = match @allocator release_build sample_heap
              (@sizeof_header release_build + capacity_for (3 + 2)) with
      | None => Ret None sample_heap
      | Some _ => Undef
      end.
Proof.
  apply (@null_unchecked release_build 64 3 sample_heap).
  - unfold platform_ok. simpl. lia.
  - unfold enough. simpl. lia.
  - unfold fits. simpl. lia.
  - reflexivity.
  - reflexivity.
Defined.

(** X14: on non-NULL arguments the build options do not matter: two
    builds for the same platform and allocator, whatever their [NDEBUG],
    [A_NULL_PASSTHROUGH] and validator, give [a_new_size_raw],
    [a_new_size], [a_new_len] and [a_new_dup] the same outcome, for every
    argument, fuel and heap. *)
Theorem build_options_irrelevant (E1 E2 : env) (fuel : nat) (h : heap) :
  same_platform E1 E2 →
  (∀ l, @a_new_size_raw E1 fuel l h = @a_new_size_raw E2 fuel l h)
  ∧ (∀ l, @a_new_size E1 fuel l h = @a_new_size E2 fuel l h)
  ∧ (∀ src l, @a_new_len E1 fuel (Some src) l h = @a_new_len E2 fuel (Some src) l h)
  ∧ (∀ sp, @a_new_dup E1 fuel (Some sp) h = @a_new_dup E2 fuel (Some sp) h).
Proof.
  destruct E1 as [w hs nd1 pt1 v1 al], E2 as [w2 hs2 nd2 pt2 v2 al2].
  unfold same_platform. simpl. intros (<- & <- & <-).
  split; [reflexivity|]. split; [reflexivity|]. split.
  - intros src l. unfold a_new_len.
    rewrite !bind_eq, !assert_passes by (right; by apply bool_decide_eq_true).
    rewrite (bool_decide_true (Some src ≠ None)) by done.
    rewrite !passthrough_skipped. reflexivity.
  - intros sp. unfold a_new_dup.
    rewrite !bind_eq, !assert_passes by (right; by apply bool_decide_eq_true).
    rewrite (bool_decide_true (Some sp ≠ None)) by done.
    rewrite !passthrough_skipped. reflexivity.
Qed.

Lemma build_options_irrelevant_witness :
  @a_new_size_raw debug_build 64 100 sample_heap
  = @a_new_size_raw passthrough_build 64 100 sample_heap
  ∧ @a_new_size debug_build 64 100 sample_heap
    = @a_new_size passthrough_build 64 100 sample_heap
  ∧ @a_new_len debug_build 64 (Some sample_cafe) 3 sample_heap
    = @a_new_len passthrough_build 64 (Some sample_cafe) 3 sample_heap
  ∧ @a_new_dup debug_build 64 (Some 5%positive) sample_heap
    = @a_new_dup passthrough_build 64 (Some 5%positive) sample_heap.
Proof.
  assert (same_platform debug_build passthrough_build) as Hsame
    by (split; [reflexivity|]; split; reflexivity).
  destruct (build_options_irrelevant debug_build passthrough_build 64 sample_heap Hsame)
    as (Hraw & Hsize & Hlen & Hdup).
  split; [apply Hraw|]. split; [apply Hsize|]. split; [apply Hlen|apply Hdup].
Defined.

(** ** Composition *)

(** X15: duplicating a string that [a_new s] has just built gives
    [NULL], or a second block, apart from the first and leaving it as it
    was, that reads back as [s], records the same byte and code-point
    lengths, and whose recorded capacity is the size of its own
    buffer. *)
Theorem a_new_then_dup `{E : env} (fuel : nat) (src : list Byte.byte) (h h1 : heap)
    (p : positive) :
  platform_ok E → enough fuel → new_args (Some src) →
  a_new fuel (Some src) h = Ret (Some p) h1 →
  null_or (a_new_dup fuel (Some p) h1) h1
    (λ q h2,
       q ≠ p ∧ h2 !! p = h1 !! p ∧
       holds (λ db, strlen (buf db) = strlen src
                    ∧ Some (size (hdr db)) = strlen src
                    ∧ Some (len (hdr db)) = a_len_cstr src
                    ∧ Z.of_nat (length (buf db)) = mem (hdr db)) q h2).
Proof.
  intros Hplat Hfuel (Hpass & l & Hl & Hfit & [n Hn]) Hnew.
  rewrite (a_new_allocated Hplat fuel src l n) in Hnew by done.
  pose proof (fits_capacity Hplat l Hfit) as [Hlo _].
  pose proof (strlen_bounds src l Hl) as [Hlen Hnul].
  unfold allocated in Hnew. destruct (allocator h _) as [f|]; [|done].
  injection Hnew as <- <-.
  set (c := capacity_for (l + 2)) in *.
  set (sb := new_len_block src l n (raw_block f c)).
  destruct (new_len_block_prefix src l n c f) as (Htake & Hnul' & Hlen'); [lia..|].
  fold sb in Htake, Hnul', Hlen'.
  assert (size (hdr sb) = l) as Hsize by done.
  rewrite (a_new_dup_allocated Hplat fuel (fresh (dom h)) sb).
  2: apply lookup_insert_eq. 2: by rewrite Hsize. 2: rewrite Hsize; lia. 2: done.
  rewrite Hsize. fold c.
  unfold allocated. destruct (allocator _ _) as [f'|]; [|done].
  cbn [null_or].
  set (h1 := <[fresh (dom h) := sb]> h).
  assert (fresh (dom h1) ≠ fresh (dom h)) as Hne.
  { intros Heq. pose proof (fresh_unused h1) as Hfresh. rewrite Heq in Hfresh.
    unfold h1 in Hfresh. by rewrite lookup_insert_eq in Hfresh. }
  split; [done|]. split; [by rewrite lookup_insert_ne|].
  eexists. split; [apply lookup_insert_eq|].
  unfold new_dup_block. rewrite Hsize. cbn [hdr buf].
  assert (length (take (Z.to_nat (l + 1)) (buf sb)) = Z.to_nat (l + 1)) as Hpre
    by (rewrite length_take; lia).
  split; [|split; [|split]].
  - rewrite Hl. apply (strlen_prefix src); [done|].
    rewrite take_app_length' by done.
    replace (Z.to_nat (l + 1)) with (S (Z.to_nat l)) by lia.
    rewrite (take_S_r _ _ _ Hnul'), (take_S_r _ _ _ Hnul). by rewrite Htake.
  - by rewrite Hl.
  - by rewrite Hn.
  - rewrite length_app, Hpre, length_drop.
    pose proof (raw_block_length f' c). change (mem (hdr sb)) with c. lia.
Qed.

Lemma a_new_then_dup_witness :
  null_or (@a_new_dup debug_build 64 (Some 1%positive) sample_heap_cafe) sample_heap_cafe
    (λ q h2,
       q ≠ 1%positive ∧ h2 !! 1%positive = sample_heap_cafe !! 1%positive ∧
       holds (λ db, strlen (buf db) = strlen sample_cafe
                    ∧ Some (size (hdr db)) = strlen sample_cafe
                    ∧ Some (len (hdr db)) = a_len_cstr sample_cafe
                    ∧ Z.of_nat (length (buf db)) = mem (hdr db)) q h2).
Proof.
  apply (@a_new_then_dup debug_build 64 sample_cafe ∅ sample_heap_cafe 1%positive).
  - unfold platform_ok. simpl. lia.
  - unfold enough. simpl. lia.
  - split; [right; reflexivity|].
    exists 5. split; [reflexivity|]. split; [unfold fits; simpl; lia|by exists 4].
  - by vm_compute.
Defined.

(** X16: for a request the minimum capacity covers, [a_new_size l]
    builds exactly what [a_new(NULL)] builds when its assertion lets the
    empty string through: the same outcome on every heap, for any
    fuel. *)
Theorem a_new_size_small_is_a_new_null `{E : env} (fuel : nat) (l : Z) (h : heap) :
  platform_ok E → utf8_assertion_passes None →
  0 ≤ l → l + 1 ≤ A_MIN_STR_SIZE →
  a_new_size fuel l h = a_new fuel None h.
Proof.
  intros Hplat Hpass Hl Hsmall.
  pose proof (min_size_fits Hplat) as Hmin.
  rewrite a_new_null_allocated by done.
  unfold a_new_size.
  rewrite bind_eq, a_new_size_raw_allocated by (done || lia || by right).
  rewrite capacity_for_min by done.
  unfold allocated, id. destruct (allocator h _) as [f|]; [|done].
  rewrite bind_eq, poke_str_insert
    by (rewrite raw_block_length; unfold A_MIN_STR_SIZE; lia).
  rewrite bind_eq, set_len_insert, bind_eq, set_size_insert. done.
Qed.

Lemma a_new_size_small_is_a_new_null_witness :
  @a_new_size debug_build 0 15 sample_heap = @a_new debug_build 0 None sample_heap.
Proof.
  apply (@a_new_size_small_is_a_new_null debug_build 0 15 sample_heap).
  - unfold platform_ok. simpl. lia.
  - right. reflexivity.
  - lia.
  - unfold A_MIN_STR_SIZE. lia.
Defined.

(** ** Assertions that guard single bytes *)

(** X17: with assertions enabled, [A_ASSERT_CODEPOINT_BOUNDARY] aborts
    exactly on the continuation bytes 0x80 to 0xBF and lets every other
    byte through. *)
Theorem boundary_assertion_rejects_continuation `{E : env} (c : Byte.byte) (h : heap) :
  NDEBUG = false →
  A_ASSERT_CODEPOINT_BOUNDARY c h = Abort ↔ 128 ≤ Z.of_N (Byte.to_N c) ≤ 191.
Proof.
  intros Hdebug. unfold A_ASSERT_CODEPOINT_BOUNDARY, assert. rewrite Hdebug.
  destruct c; vm_compute; split; (done || (intros [H1 H2]; done) || (intros _; split; discriminate)).
Qed.

Lemma boundary_assertion_rejects_continuation_witness :
  @A_ASSERT_CODEPOINT_BOUNDARY debug_build Byte.xa9 sample_heap = Abort
  ↔ 128 ≤ Z.of_N (Byte.to_N Byte.xa9) ≤ 191.
Proof.
  apply (@boundary_assertion_rejects_continuation debug_build Byte.xa9 sample_heap).
  reflexivity.
Defined.

(** ** What [a_new_size_raw] leaves untouched, and what its callers inherit *)

(** X19: [a_new_size_raw] writes [mem] and nothing else: in the block it
    returns, [len], [size] and every buffer byte are what the allocator
    delivered. *)
Theorem a_new_size_raw_writes_mem_only `{E : env} (fuel : nat) (l : Z) (h : heap) :
  platform_ok E → new_size_args l → enough fuel →
  null_or (a_new_size_raw fuel l h) h
    (holds (λ b, ∃ f, allocator h (sizeof_header + mem (hdr b)) = Some f
                      ∧ len (hdr b) = len (junk_hdr f)
                      ∧ size (hdr b) = size (junk_hdr f)
                      ∧ buf b = junk_buf f <$> seq 0 (Z.to_nat (mem (hdr b))))).
Proof.
  intros Hplat [Hl Hfit] Hfuel.
  rewrite a_new_size_raw_allocated by (done || by left).
  unfold allocated, id.
  destruct (allocator h (sizeof_header + capacity_for (l + 1))) as [f|] eqn:Hf; [|done].
  cbn [null_or holds]. eexists. split; [apply lookup_insert_eq|].
  exists f. cbn [raw_block hdr buf len size mem]. by rewrite Hf.
Qed.

Lemma a_new_size_raw_writes_mem_only_witness :
  null_or (@a_new_size_raw debug_build 64 100 sample_heap) sample_heap
    (holds (λ b, ∃ f, @allocator debug_build sample_heap
                        (@sizeof_header debug_build + mem (hdr b)) = Some f
                      ∧ len (hdr b) = len (junk_hdr f)
                      ∧ size (hdr b) = size (junk_hdr f)
                      ∧ buf b = junk_buf f <$> seq 0 (Z.to_nat (mem (hdr b))))).
Proof.
  apply (@a_new_size_raw_writes_mem_only debug_build 64 100 sample_heap).
  - unfold platform_ok. simpl. lia.
  - unfold new_size_args. simpl. lia.
  - unfold enough. simpl. lia.
Defined.

Lemma a_new_size_raw_never_exits `{E : env} (fuel : nat) (x : Z) (h : heap) :
  platform_ok E → 2 ^ (SIZE_BITS - 1) < x + 1 < 2 ^ SIZE_BITS →
  a_new_size_raw fuel x h = Diverge.
Proof.
  intros Hplat Hx. unfold a_new_size_raw.
  rewrite wrap_small by (pose proof (size_bits_pos Hplat); lia).
  rewrite bind_eq, (a_new_size_raw_loop_stuck Hplat); [done|lia|].
  right. exists 4. split; [destruct Hplat; lia|done].
Qed.

(** X20: the callers inherit the endless loop: once the byte count plus
    2 exceeds the largest power of two of [size_t] without wrapping,
    [a_new_len], [a_new_dup] and [a_new_chr_internal] never return,
    whatever the fuel; [a_new_size] does the same from [l + 1] on. *)
Theorem callers_diverge `{E : env} (fuel : nat) (h : heap) :
  platform_ok E →
  (∀ l, 2 ^ (SIZE_BITS - 1) < l + 1 < 2 ^ SIZE_BITS → a_new_size fuel l h = Diverge)
  ∧ (∀ src l, 2 ^ (SIZE_BITS - 1) < l + 2 < 2 ^ SIZE_BITS →
        a_new_len fuel (Some src) l h = Diverge)
  ∧ (∀ sp sb, h !! sp = Some sb →
        2 ^ (SIZE_BITS - 1) < size (hdr sb) + 2 < 2 ^ SIZE_BITS →
        a_new_dup fuel (Some sp) h = Diverge)
  ∧ (∀ chr sz repeat, 0 ≤ sz * repeat →
        2 ^ (SIZE_BITS - 1) < sz * repeat + 2 < 2 ^ SIZE_BITS →
        a_new_chr_internal fuel chr sz repeat h = Diverge).
Proof.
  intros Hplat. pose proof (size_bits_pos Hplat) as Hpos.
  split; [|split; [|split]].
  - intros l Hl. unfold a_new_size. by rewrite bind_eq, a_new_size_raw_never_exits.
  - intros src l Hl. unfold a_new_len.
    rewrite bind_eq, assert_passes by (right; by apply bool_decide_eq_true).
    rewrite (bool_decide_true (Some src ≠ None)) by done.
    rewrite passthrough_skipped.
    rewrite wrap_small by lia.
    rewrite bind_eq, a_new_size_raw_never_exits; [done..|lia].
  - intros sp sb Hsp Hsz. by apply (a_new_dup_diverges fuel sp sb).
  - intros chr sz repeat Hnn Hl. unfold a_new_chr_internal.
    rewrite !wrap_small by (rewrite ?wrap_small; lia).
    rewrite bind_eq, a_new_size_raw_never_exits; [done..|lia].
Qed.

Lemma callers_diverge_witness :
  @a_new_size debug_build 1000 (2 ^ 63) sample_heap = Diverge
  ∧ @a_new_len debug_build 1000 (Some sample_cafe) (2 ^ 63) sample_heap = Diverge
  ∧ @a_new_chr_internal debug_build 1000 sample_e_acute 2 (2 ^ 62) sample_heap = Diverge.
Proof.
  assert (platform_ok debug_build) as Hplat by (unfold platform_ok; simpl; lia).
  destruct (@callers_diverge debug_build 1000 sample_heap Hplat)
    as (Hsize & Hlen & _ & Hchr).
  split; [|split].
  - apply Hsize. simpl. lia.
  - apply Hlen. simpl. lia.
  - apply Hchr; simpl; lia.
Defined.

(** X21: [a_new_len] with a byte count of the two largest [size_t]
    values gets the minimum block, because the request wraps, and then
    copies past its end: when the allocator has storage the call is an
    out-of-bounds write. *)
Theorem a_new_len_overruns `{E : env} (fuel : nat) (src : list Byte.byte) (l : Z)
    (h : heap) :
  platform_ok E → l = 2 ^ SIZE_BITS - 1 ∨ l = 2 ^ SIZE_BITS - 2 →
  is_Some (allocator h (sizeof_header + A_MIN_STR_SIZE)) →
  a_new_len fuel (Some src) l h = Undef.
Proof.
  intros Hplat Hl [f Hf].
  pose proof (min_size_fits Hplat) as Hmin. pose proof (size_max_half Hplat) as Hhalf.
  unfold A_MIN_STR_SIZE in *.
  unfold a_new_len.
  rewrite bind_eq, assert_passes by (right; by apply bool_decide_eq_true).
  rewrite (bool_decide_true (Some src ≠ None)) by done.
  rewrite passthrough_skipped.
  assert (a_new_size_raw fuel (wrap (l + 1)) h = allocated h A_MIN_STR_SIZE id) as Hraw.
  { destruct Hl as [-> | ->].
    - assert (wrap (2 ^ SIZE_BITS - 1 + 1) = 0) as ->.
      { unfold wrap. replace (2 ^ SIZE_BITS - 1 + 1) with (1 * 2 ^ SIZE_BITS) by lia.
        apply Z.mod_mul. lia. }
      rewrite a_new_size_raw_allocated
        by (done || lia || (right; unfold A_MIN_STR_SIZE; lia)).
      by rewrite capacity_for_min by (unfold A_MIN_STR_SIZE; lia).
    - replace (2 ^ SIZE_BITS - 2 + 1) with (2 ^ SIZE_BITS - 1) by lia.
      rewrite wrap_small by lia. by apply a_new_size_raw_wraps. }
  rewrite bind_eq, Hraw. unfold allocated, id, A_MIN_STR_SIZE. rewrite Hf.
  rewrite bind_eq. cbn [defined]. unfold mret at 1, M_ret at 1.
  rewrite bind_eq. unfold memcpy_str. rewrite bind_eq, load_insert.
  assert (memcpy (buf (raw_block f 16)) 0 src l = None) as Hcpy.
  { unfold memcpy.
    destruct (Z.leb_spec (0 + l) (Z.of_nat (length (buf (raw_block f 16))))) as [Hle|].
    - rewrite raw_block_length in Hle by lia. lia.
    - by rewrite andb_false_r. }
  by rewrite bind_eq, Hcpy.
Qed.

Lemma a_new_len_overruns_witness :
  @a_new_len debug_build 0 (Some sample_cafe) (2 ^ 64 - 2) sample_heap = Undef.
Proof.
  apply (@a_new_len_overruns debug_build 0 sample_cafe (2 ^ 64 - 2) sample_heap).
  - unfold platform_ok. simpl. lia.
  - right. reflexivity.
  - by eexists.
Defined.

(** X22: [a_new_len] copies [l] bytes whatever the object at [s] holds:
    when the object has fewer than [l] bytes and the allocator has
    storage, the copy reads past the object. *)
Theorem a_new_len_reads_l_bytes `{E : env} (fuel : nat) (src : list Byte.byte) (l : Z)
    (h : heap) :
  platform_ok E → enough fuel → fits l → Z.of_nat (length src) < l →
  is_Some (allocator h (sizeof_header + capacity_for (l + 2))) →
  a_new_len fuel (Some src) l h = Undef.
Proof.
  intros Hplat Hfuel [Hl Hfit] Hshort [f Hf]. unfold a_new_len.
  rewrite bind_eq, assert_passes by (right; by apply bool_decide_eq_true).
  rewrite (bool_decide_true (Some src ≠ None)) by done.
  rewrite passthrough_skipped.
  rewrite (wrap_fits Hplat) by lia.
  rewrite bind_eq, a_new_size_raw_allocated by (done || lia || by left).
  replace (l + 1 + 1) with (l + 2) by lia.
  unfold allocated, id. rewrite Hf.
  rewrite bind_eq. cbn [defined]. unfold mret at 1, M_ret at 1.
  rewrite bind_eq. unfold memcpy_str. rewrite bind_eq, load_insert.
  assert (memcpy (buf (raw_block f (capacity_for (l + 2)))) 0 src l = None) as Hcpy.
  { unfold memcpy. destruct (Z.leb_spec l (Z.of_nat (length src))); [lia|].
    by rewrite andb_false_r. }
  by rewrite bind_eq, Hcpy.
Qed.

Lemma a_new_len_reads_l_bytes_witness :
  @a_new_len debug_build 64 (Some sample_ab) 7 sample_heap = Undef.
Proof.
  apply (@a_new_len_reads_l_bytes debug_build 64 sample_ab 7 sample_heap).
  - unfold platform_ok. simpl. lia.
  - unfold enough. simpl. lia.
  - unfold fits. simpl. lia.
  - simpl. lia.
  - by eexists.
Defined.

(** X18: passthrough reaches neither [a_new] nor [a_new_chr]: with
    [A_NULL_PASSTHROUGH] on and assertions compiled out, [a_new(NULL)]
    with storage available returns a new empty string, not [NULL], and
    [a_new_chr(NULL, repeat)] reads through the null pointer. *)
Theorem passthrough_misses_a_new_and_a_new_chr `{E : env} (fuel : nat) (repeat : Z)
    (h : heap) :
  platform_ok E → NDEBUG = true → A_NULL_PASSTHROUGH = true →
  is_Some (allocator h (sizeof_header + A_MIN_STR_SIZE)) →
  a_new_chr fuel None repeat h = Undef
  ∧ ∃ p h', a_new fuel None h = Ret (Some p) h'
            ∧ holds (λ b, size (hdr b) = 0 ∧ buf b !! 0%nat = Some Byte.x00) p h'.
Proof.
  intros Hplat Hndebug Hpass [f Hf]. split; [reflexivity|].
  rewrite a_new_null_allocated by (done || by left).
  unfold allocated. rewrite Hf. eexists _, _. split; [reflexivity|].
  eexists. split; [apply lookup_insert_eq|]. by vm_compute.
Qed.

Lemma passthrough_misses_a_new_and_a_new_chr_witness :
  @a_new_chr passthrough_build 0 None 3 sample_heap = Undef
  ∧ ∃ p h', @a_new passthrough_build 0 None sample_heap = Ret (Some p) h'
            ∧ holds (λ b, size (hdr b) = 0 ∧ buf b !! 0%nat = Some Byte.x00) p h'.
Proof.
  apply (@passthrough_misses_a_new_and_a_new_chr passthrough_build 0 3 sample_heap).
  - unfold platform_ok. simpl. lia.
  - reflexivity.
  - reflexivity.
  - by eexists.
Defined.
